(** * FilePath: path parsing, serialisation and composition

    A shallow embedding of the string-level core of [file_path.hpp]
    (class [FilePath]): [split], [set], [to_str], [operator/], [filename],
    [parent_path] and [make_absolute].

    Conventions of the embedding.
    - [std::string] is a list of 8-bit characters ([list ascii]).
    - [size_t] is [N] with the wrap-around modulo [2^64] written out;
      [std::string::npos] is [2^64 - 1].
    - A member function returns an [outcome]: a value, a thrown
      [std::runtime_error] / [std::out_of_range], undefined behaviour, or the
      exhaustion of the iteration bound given to a [while] loop.
    - The operating-system call behind [make_absolute] ([realpath] or
      [GetFullPathNameA]) and the compile-time constant [NATIVE] are
      section variables. *)

From Stdlib Require Import List Arith NArith Bool Ascii String Lia.
From Stdlib Require Import DecimalString.
Import ListNotations.

Local Open Scope N_scope.

(** ** Strings and [size_t] *)

Definition std_string : Type := list ascii.

(** A literal of the source, as a [std_string]. *)
Definition str (s : string) : std_string := list_ascii_of_string s.

Definition size_t_modulus : N := 2 ^ 64.

(** [std::string::npos], the largest [size_t]. *)
Definition npos : N := size_t_modulus - 1.

(** Unsigned arithmetic on [size_t]. *)
Definition size_add (a b : N) : N := (a + b) mod size_t_modulus.
Definition size_sub (a b : N) : N := (a + size_t_modulus - b) mod size_t_modulus.

Definition size (s : std_string) : N := N.of_nat (List.length s).

(** [s[i]]; every use in the source is guarded by a test on [size]. *)
Definition at_ (s : std_string) (i : nat) : ascii := nth i s zero.

Definition string_eqb (a b : std_string) : bool :=
  if list_eq_dec ascii_dec a b then true else false.

Definition mem_char (c : ascii) (set : std_string) : bool :=
  existsb (Ascii.eqb c) set.

(** ** Outcomes of a call *)

Inductive outcome (A : Type) : Type :=
| Ret (a : A)               (* normal return *)
| Throw (what : string)     (* an exception, with its [what()] *)
| Undefined                 (* undefined behaviour *)
| OutOfFuel.                (* the loop bound of the model was reached *)

Arguments Ret {A} a.
Arguments Throw {A} what.
Arguments Undefined {A}.
Arguments OutOfFuel {A}.

Definition bind {A B : Type} (m : outcome A) (k : A -> outcome B) : outcome B :=
  match m with
  | Ret a => k a
  | Throw w => Throw w
  | Undefined => Undefined
  | OutOfFuel => OutOfFuel
  end.

Notation "x <- m ;; k" := (bind m (fun x => k))
  (at level 61, m at next level, right associativity).

(** ** The [std::string] members used by the class *)

(** [s.find_first_of(delim, pos)]: scan [s], whose head has index [i]. *)
Fixpoint find_from (delim s : std_string) (i : N) : N :=
  match s with
  | [] => npos
  | c :: s' => if mem_char c delim then i else find_from delim s' (N.succ i)
  end.

Definition find_first_of (s delim : std_string) (pos : N) : N :=
  if pos <? size s then find_from delim (skipn (N.to_nat pos) s) pos else npos.

(** [s.substr(pos, count)]: throws when [pos > size()], clamps [count]. *)
Definition substr (s : std_string) (pos count : N) : outcome std_string :=
  if size s <? pos then Throw "basic_string::substr"
  else Ret (firstn (N.to_nat (N.min count (size s - pos))) (skipn (N.to_nat pos) s)).

(** [s.erase(0, count)] *)
Definition erase_front (s : std_string) (count : nat) : std_string := skipn count s.

(** [s.pop_back()]: undefined on the empty string. *)
Definition pop_back (s : std_string) : outcome std_string :=
  match s with
  | [] => Undefined
  | _ :: _ => Ret (removelast s)
  end.

(** [std::isalpha] in the "C" locale, on a character below 0x80. *)
Definition isalpha (c : ascii) : bool :=
  let n := N_of_ascii c in
  ((65 <=? n) && (n <=? 90)) || ((97 <=? n) && (n <=? 122)).

(** ** The class *)

Inductive Platform : Type := UNIX | WINDOWS.

Definition Platform_eqb (a b : Platform) : bool :=
  match a, b with
  | UNIX, UNIX | WINDOWS, WINDOWS => true
  | _, _ => false
  end.

Record FilePath : Type := mkFilePath {
  path_ : list std_string;
  is_absolute_ : bool;
  platform_ : Platform
}.

(** [FilePath()] *)
Definition FilePath_default (NATIVE : Platform) : FilePath :=
  {| path_ := []; is_absolute_ := false; platform_ := NATIVE |}.

Definition empty (self : FilePath) : bool :=
  match path_ self with [] => true | _ :: _ => false end.

Definition is_absolute (self : FilePath) : bool := is_absolute_ self.

(** [path_.back()] of a non-empty vector. *)
Definition back (v : list std_string) : std_string := last v [].

(** *** [split] *)

(** The [while] loop of [split]; [fuel] bounds the number of iterations. *)
Fixpoint split_loop (fuel : nat) (origin delim : std_string)
    (result : list std_string) (last_pos find_pos : N) : outcome (list std_string) :=
  match fuel with
  | O => OutOfFuel
  | S fuel' =>
      if last_pos =? npos then Ret result
      else
        result <- (if negb (find_pos =? last_pos)
                   then tok <- substr origin last_pos (size_sub find_pos last_pos) ;;
                        Ret (result ++ [tok])
                   else Ret result) ;;
        let last_pos := find_pos in
        if (last_pos =? npos) || (last_pos =? size_sub (size origin) 1)
        then Ret result
        else
          let last_pos := size_add last_pos 1 in
          split_loop fuel' origin delim result last_pos
                     (find_first_of origin delim last_pos)
  end.

Definition split (origin delim : std_string) : outcome (list std_string) :=
  split_loop (S (List.length origin)) origin delim [] 0 (find_first_of origin delim 0).

(** *** [set] *)

Definition is_drive_prefix (tmp : std_string) : bool :=
  (3 <=? size tmp)
  && (N_of_ascii (at_ tmp 0) <? 128)
  && isalpha (at_ tmp 0)
  && Ascii.eqb (at_ tmp 1) ":"
  && (Ascii.eqb (at_ tmp 2) "\" || Ascii.eqb (at_ tmp 2) "/").

Definition set (path_str : std_string) (platform : Platform) : outcome FilePath :=
  match platform with
  | WINDOWS =>
      let tmp := path_str in
      if is_drive_prefix tmp then
        drive <- substr tmp 0 2 ;;
        let tmp := erase_front tmp 3 in
        splited <- split tmp (str "/\") ;;
        Ret {| path_ := [drive] ++ splited; is_absolute_ := true;
               platform_ := WINDOWS |}
      else
        splited <- split tmp (str "/\") ;;
        Ret {| path_ := [] ++ splited; is_absolute_ := false;
               platform_ := WINDOWS |}
  | UNIX =>
      p <- split path_str (str "/") ;;
      Ret {| path_ := p;
             is_absolute_ := negb (size path_str =? 0)
                             && Ascii.eqb (at_ path_str 0) "/";
             platform_ := UNIX |}
  end.

(** *** [to_str] *)

Definition to_str (self : FilePath) (platform : Platform) : outcome std_string :=
  let ss : std_string :=
    if is_absolute_ self
    then match platform_ self with UNIX => str "/" | WINDOWS => [] end
    else [] in
  let ss :=
    fold_left (fun ss p =>
                 match platform with
                 | UNIX => ss ++ p ++ str "/"
                 | WINDOWS => ss ++ p ++ str "\"
                 end) (path_ self) ss in
  pop_back ss.

(** *** [operator/] *)

Definition operator_div (self other : FilePath) : outcome FilePath :=
  if is_absolute_ other
  then Throw "FilePath::operator/(): expected a relative path!"
  else if negb (Platform_eqb (platform_ self) (platform_ other))
  then Throw "FilePath::operator/(): expected a path of the same type!"
  else
    let result := self in
    Ret (fold_left (fun r p => {| path_ := path_ r ++ [p];
                                  is_absolute_ := is_absolute_ r;
                                  platform_ := platform_ r |})
                   (path_ other) result).

(** *** [filename] *)

Definition filename (self : FilePath) : std_string :=
  if empty self then [] else back (path_ self).

Section Native.

(** The platform the header is compiled for. *)
Variable NATIVE : Platform.

(** [realpath] / [GetFullPathNameA]: the resolved path, or the error
    number of the failed call. *)
Variable resolve : std_string -> N + std_string.

(** *** [make_absolute] *)

Definition make_absolute (self : FilePath) : outcome FilePath :=
  s <- to_str self NATIVE ;;
  match resolve s with
  | inl errno =>
      Throw (("Internal error in make_absolute"
              ++ match NATIVE with UNIX => " : " | WINDOWS => ":" end
              ++ NilEmpty.string_of_uint (N.to_uint errno))%string)
  | inr tmp => set tmp NATIVE
  end.

(** *** [parent_path] *)

Definition parent_path (self : FilePath) : outcome FilePath :=
  let result := self in
  let result :=
    if negb (empty result)
       && negb (string_eqb (back (path_ result)) (str "."))
       && negb (string_eqb (back (path_ result)) (str ".."))
    then {| path_ := removelast (path_ result);
            is_absolute_ := is_absolute_ result;
            platform_ := platform_ result |}
    else {| path_ := path_ result ++ [str ".."];
            is_absolute_ := is_absolute_ result;
            platform_ := platform_ result |} in
  if is_absolute_ self then make_absolute result else Ret result.

End Native.

(** ** Specification-side definitions *)

(** The separator [to_str] writes for a target syntax. *)
Definition separator (platform : Platform) : ascii :=
  match platform with UNIX => "/"%char | WINDOWS => "\"%char end.

(** The separator set [set] splits on for a syntax. *)
Definition separators (platform : Platform) : std_string :=
  match platform with UNIX => str "/" | WINDOWS => str "/\" end.

(** The segments joined by [sep], with no separator after the last one. *)
Fixpoint join (sep : ascii) (segs : list std_string) : std_string :=
  match segs with
  | [] => []
  | [x] => x
  | x :: rest => x ++ sep :: join sep rest
  end.

(** The maximal delimiter-free substrings of [s], in order; [cur] is the
    substring being read.  [split] is proved to compute [tokens] on every
    non-empty string (lemma [split_tokens]). *)
Fixpoint tokens_aux (delim cur s : std_string) : list std_string :=
  match s with
  | [] => match cur with [] => [] | _ :: _ => [cur] end
  | c :: s' =>
      if mem_char c delim
      then match cur with
           | [] => tokens_aux delim [] s'
           | _ :: _ => cur :: tokens_aux delim [] s'
           end
      else tokens_aux delim (cur ++ [c]) s'
  end.

Definition tokens (delim s : std_string) : list std_string := tokens_aux delim [] s.

(** No character of [s] is in [delim]. *)
Definition no_delim (delim s : std_string) : Prop :=
  Forall (fun c => mem_char c delim = false) s.

(** A segment as [split] produces them from a non-empty string. *)
Definition segment (delim x : std_string) : Prop := x <> [] /\ no_delim delim x.

(** A string the implementation can hold: [size()] is below [npos]. *)
Definition fits (s : std_string) : Prop := size s < npos.

(** A letter below 0x80 followed by a colon. *)
Definition is_drive_designator (x : std_string) : bool :=
  match x with
  | [a; b] => (N_of_ascii a <? 128) && isalpha a && Ascii.eqb b ":"
  | _ => false
  end.

(** The token [x] as a list: nothing when [x] is empty. *)
Definition opt_tok (x : std_string) : list std_string :=
  match x with [] => [] | _ :: _ => [x] end.

(** What [to_str] writes before the first segment. *)
Definition root_prefix (v : FilePath) : std_string :=
  if is_absolute_ v
  then match platform_ v with UNIX => str "/" | WINDOWS => [] end
  else [].

(** ** Statements the parsing and serialisation claims are measured against *)

(** Parsing [s] in syntax [P], serialising in [P] and parsing again gives
    the first value back. *)
Definition round_trip (s : std_string) (P : Platform) : Prop :=
  exists v t, set s P = Ret v /\ to_str v P = Ret t /\ set t P = Ret v.

(** The values whose serialisation identifies them: at least one segment;
    under WINDOWS, an absolute value has a segment after the drive
    designator, and a relative value of two or more segments does not start
    with a drive designator. *)
Definition reparsable (v : FilePath) : bool :=
  match platform_ v, is_absolute_ v with
  | UNIX, _ => negb (empty v)
  | WINDOWS, true => (2 <=? List.length (path_ v))%nat
  | WINDOWS, false =>
      negb (empty v)
      && negb ((2 <=? List.length (path_ v))%nat
               && is_drive_designator (hd [] (path_ v)))
  end.

Definition parses_reparsable (s : std_string) (P : Platform) : bool :=
  match set s P with
  | Ret v => reparsable v
  | _ => false
  end.

(** The serialisation as the specification words it: when the value is
    absolute with POSIX syntax, one leading separator of the target syntax,
    then the segments joined with the separator of the target syntax. *)
Definition serialize_spec (v : FilePath) (target : Platform) : std_string :=
  (if is_absolute_ v
   then match platform_ v with UNIX => [separator target] | WINDOWS => [] end
   else [])
  ++ join (separator target) (path_ v).

(** ** The rest of the class *)

(** [s.find_last_of(c)]: scan [s], whose head has index [i]; [found] is the
    last match so far. *)
Fixpoint find_last_scan (c : ascii) (s : std_string) (i found : N) : N :=
  match s with
  | [] => found
  | a :: s' => find_last_scan c s' (N.succ i) (if Ascii.eqb a c then i else found)
  end.

Definition find_last_of (s : std_string) (c : ascii) : N :=
  find_last_scan c s 0 npos.

(** The constructors and assignments from a narrow string or a C string:
    [set] with the default platform. *)
Definition FilePath_of_string (NATIVE : Platform) (path_str : std_string)
  : outcome FilePath :=
  set path_str NATIVE.

Section Queries.

(** The platform the header is compiled for. *)
Variable NATIVE : Platform.

(** [stat] with [S_ISDIR] / [GetFileAttributesA] with
    [FILE_ATTRIBUTE_DIRECTORY], on the string whose [c_str()] the call gets:
    does it name a directory. *)
Variable stat_is_dir : std_string -> bool.

(** [opendir] and [readdir] / [FindFirstFileA] and [FindNextFileA]: the entry
    names in the order of the calls, or nothing when the first call fails. *)
Variable list_dir : std_string -> option (list std_string).

(** *** [is_directory] *)

Definition is_directory (self : FilePath) : outcome bool :=
  s <- to_str self NATIVE ;;
  Ret (stat_is_dir s).

(** *** [extension] *)

Definition extension (self : FilePath) : outcome std_string :=
  d <- is_directory self ;;
  if negb d then Ret []
  else
    let name := filename self in
    let pos := find_last_of name "." in
    if pos =? npos then Ret []
    else substr name (size_add pos 1) npos.

(** *** [directory_iterator] *)

(** The loop over the entries: [result.push_back(path / name)]. *)
Fixpoint push_entries (path : FilePath) (names : list std_string)
    (result : list FilePath) : outcome (list FilePath) :=
  match names with
  | [] => Ret result
  | name :: names' =>
      entry <- FilePath_of_string NATIVE name ;;
      child <- operator_div path entry ;;
      push_entries path names' (result ++ [child])
  end.

Definition directory_iterator (path : FilePath) : outcome (list FilePath) :=
  d <- is_directory path ;;
  if negb d then Ret []
  else
    let result := [] in
    match NATIVE with
    | UNIX =>
        s <- to_str path NATIVE ;;
        match list_dir s with
        | None => Ret []
        | Some names => push_entries path names result
        end
    | WINDOWS =>
        star <- FilePath_of_string NATIVE (str "*") ;;
        pattern <- operator_div path star ;;
        s <- to_str pattern NATIVE ;;
        match list_dir s with
        | None => Ret []
        | Some names => push_entries path names result
        end
    end.

End Queries.

(** ** Well-formed and constructible values *)

(** The invariant of the data model: every segment is non-empty and free of
    the separators of the value's syntax, and an absolute WINDOWS value
    starts with a drive designator. *)
Definition well_formed (v : FilePath) : Prop :=
  Forall (segment (separators (platform_ v))) (path_ v)
  /\ (platform_ v = WINDOWS -> is_absolute_ v = true ->
      is_drive_designator (hd [] (path_ v)) = true).

(** The values a caller can build from narrow strings: [set] is private and
    the constructors call it with the default platform. *)
Inductive constructible (NATIVE : Platform) (resolve : std_string -> N + std_string)
  : FilePath -> Prop :=
| constructible_default :
    constructible NATIVE resolve (FilePath_default NATIVE)
| constructible_string (s : std_string) (v : FilePath) :
    FilePath_of_string NATIVE s = Ret v -> constructible NATIVE resolve v
| constructible_div (a b r : FilePath) :
    constructible NATIVE resolve a -> constructible NATIVE resolve b ->
    operator_div a b = Ret r -> constructible NATIVE resolve r
| constructible_parent (a r : FilePath) :
    constructible NATIVE resolve a ->
    parent_path NATIVE resolve a = Ret r -> constructible NATIVE resolve r
| constructible_absolute (a r : FilePath) :
    constructible NATIVE resolve a ->
    make_absolute NATIVE resolve a = Ret r -> constructible NATIVE resolve r.

(** The characters of [s] that are not in [delim]. *)
Definition strip (delim s : std_string) : std_string :=
  filter (fun c => negb (mem_char c delim)) s.

(** An entry name as the operating system returns them. *)
Definition entry_name (P : Platform) (name : std_string) : Prop :=
  fits name /\ name <> [] /\ no_delim (separators P) name.

(** The string [directory_iterator] asks the operating system to list,
    for a directory that serialises to [s]. *)
Definition listed (NATIVE : Platform) (s : std_string) : std_string :=
  match NATIVE with UNIX => s | WINDOWS => s ++ str "\*" end.

(** ** Proof automation *)

(** Refutes a [round_trip] hypothesis on a literal by running the three
    calls. *)
Ltac run_round_trip H :=
  let v := fresh "v" in
  let t := fresh "t" in
  let Hv := fresh "Hv" in
  let Ht := fresh "Ht" in
  let Hs := fresh "Hs" in
  destruct H as (v & t & Hv & Ht & Hs);
  vm_compute in Hv; injection Hv as <-;
  vm_compute in Ht; try discriminate Ht; injection Ht as <-;
  vm_compute in Hs; discriminate Hs.

(** ** [size_t] arithmetic *)

Lemma npos_succ : npos + 1 = size_t_modulus.
Proof. reflexivity. Qed.

Lemma size_sub_small (a b : N) :
  b <= a -> a < size_t_modulus -> size_sub a b = a - b.
Proof.
  intros Hba Ha. unfold size_sub.
  replace (a + size_t_modulus - b) with ((a - b) + 1 * size_t_modulus) by lia.
  rewrite N.Div0.mod_add. apply N.mod_small. lia.
Qed.

Lemma size_add_small (a b : N) :
  a + b < size_t_modulus -> size_add a b = a + b.
Proof. intros H. unfold size_add. now apply N.mod_small. Qed.

Lemma size_app (a b : std_string) : size (a ++ b) = size a + size b.
Proof. unfold size. rewrite length_app. lia. Qed.

Lemma size_cons (c : ascii) (s : std_string) : size (c :: s) = size s + 1.
Proof. unfold size. cbn [List.length]. lia. Qed.

Lemma size_nil : size [] = 0.
Proof. reflexivity. Qed.

Lemma skipn_size_app (pre suf : std_string) :
  skipn (N.to_nat (size pre)) (pre ++ suf) = suf.
Proof.
  unfold size. rewrite Nat2N.id.
  rewrite skipn_app, skipn_all, Nat.sub_diag. reflexivity.
Qed.

(** ** [find_first_of] and [substr] on a decomposed string *)

Lemma find_from_no_delim (d tok : std_string) (i : N) :
  no_delim d tok -> find_from d tok i = npos.
Proof.
  intros H. revert i. induction H as [|c tok Hc _ IH]; intros i; cbn.
  - reflexivity.
  - rewrite Hc. apply IH.
Qed.

Lemma find_from_delim (d tok rest : std_string) (c : ascii) (i : N) :
  no_delim d tok -> mem_char c d = true ->
  find_from d (tok ++ c :: rest) i = i + size tok.
Proof.
  intros H Hc. revert i.
  induction H as [|a tok Ha _ IH]; intros i; cbn [find_from app].
  - rewrite Hc, size_nil. lia.
  - rewrite Ha, IH, size_cons. lia.
Qed.

Lemma find_first_of_no_delim (d pre tok : std_string) :
  no_delim d tok -> find_first_of (pre ++ tok) d (size pre) = npos.
Proof.
  intros H. unfold find_first_of.
  destruct (size pre <? size (pre ++ tok)); [|reflexivity].
  rewrite skipn_size_app. now apply find_from_no_delim.
Qed.

Lemma find_first_of_delim (d pre tok rest : std_string) (c : ascii) :
  no_delim d tok -> mem_char c d = true ->
  find_first_of (pre ++ tok ++ c :: rest) d (size pre) = size pre + size tok.
Proof.
  intros H Hc. unfold find_first_of.
  replace (size pre <? size (pre ++ tok ++ c :: rest)) with true.
  - rewrite skipn_size_app. now apply find_from_delim.
  - symmetry. apply N.ltb_lt. rewrite !size_app, size_cons. lia.
Qed.

Lemma substr_middle (pre tok rest : std_string) (count : N) :
  N.min count (size tok + size rest) = size tok ->
  substr (pre ++ tok ++ rest) (size pre) count = Ret tok.
Proof.
  intros Hc. unfold substr.
  replace (size (pre ++ tok ++ rest) <? size pre) with false.
  - rewrite skipn_size_app, !size_app.
    replace (size pre + (size tok + size rest) - size pre)
      with (size tok + size rest) by lia.
    rewrite Hc. unfold size. rewrite Nat2N.id.
    rewrite firstn_app, firstn_all, Nat.sub_diag. cbn. now rewrite app_nil_r.
  - symmetry. apply N.ltb_ge. rewrite !size_app. lia.
Qed.

(** ** The structural tokenizer *)

Lemma tokens_aux_no_delim (d cur tok : std_string) :
  no_delim d tok -> tokens_aux d cur tok = opt_tok (cur ++ tok).
Proof.
  intros H. revert cur. induction H as [|a tok Ha _ IH]; intros cur; cbn.
  - now rewrite app_nil_r.
  - rewrite Ha, IH, <- app_assoc. reflexivity.
Qed.

Lemma tokens_aux_delim (d cur tok rest : std_string) (c : ascii) :
  no_delim d tok -> mem_char c d = true ->
  tokens_aux d cur (tok ++ c :: rest) = opt_tok (cur ++ tok) ++ tokens d rest.
Proof.
  intros H Hc. revert cur. induction H as [|a tok Ha _ IH]; intros cur; cbn.
  - rewrite Hc, app_nil_r. now destruct cur.
  - rewrite Ha, IH, <- app_assoc. reflexivity.
Qed.

Lemma tokens_no_delim (d tok : std_string) :
  no_delim d tok -> tokens d tok = opt_tok tok.
Proof. intros H. unfold tokens. now rewrite tokens_aux_no_delim. Qed.

Lemma tokens_delim (d tok rest : std_string) (c : ascii) :
  no_delim d tok -> mem_char c d = true ->
  tokens d (tok ++ c :: rest) = opt_tok tok ++ tokens d rest.
Proof. intros H Hc. unfold tokens at 1. now rewrite tokens_aux_delim. Qed.

(** Every string is delimiter-free or has a first delimiter. *)
Lemma first_delim (d s : std_string) :
  no_delim d s \/
  exists tok c rest, s = tok ++ c :: rest /\ no_delim d tok /\ mem_char c d = true.
Proof.
  induction s as [|a s IH].
  - left. constructor.
  - destruct (mem_char a d) eqn:Ha.
    + right. exists [], a, s. repeat split; [constructor | assumption].
    + destruct IH as [IH | (tok & c & rest & -> & Htok & Hc)].
      * left. now constructor.
      * right. exists (a :: tok), c, rest. repeat split; [now constructor | assumption].
Qed.

(** ** [split] computes the tokens *)

Lemma substr_suffix (pre tok : std_string) (count : N) :
  size tok <= count -> substr (pre ++ tok) (size pre) count = Ret tok.
Proof.
  intros Hc. rewrite <- (app_nil_r tok) at 1.
  apply substr_middle. rewrite size_nil. lia.
Qed.

Lemma opt_tok_cons (x : std_string) : x <> [] -> opt_tok x = [x].
Proof. now destruct x. Qed.

(** One pass of the loop body up to the update of [result]. *)
Lemma split_push (d pre tok rest : std_string) (r : list std_string) :
  fits (pre ++ tok ++ rest) ->
  (if negb (size pre + size tok =? size pre)
   then tok' <- substr (pre ++ tok ++ rest) (size pre)
                       (size_sub (size pre + size tok) (size pre)) ;;
        Ret (r ++ [tok'])
   else Ret r) = Ret (r ++ opt_tok tok).
Proof.
  intros Hfit. unfold fits in Hfit. rewrite !size_app in Hfit.
  pose proof npos_succ as Hn.
  destruct tok as [|a tok].
  - rewrite size_nil, N.add_0_r, N.eqb_refl. cbn. now rewrite app_nil_r.
  - replace (size pre + size (a :: tok) =? size pre) with false.
    + cbn [negb]. rewrite size_sub_small by lia.
      rewrite substr_middle by lia. reflexivity.
    + symmetry. apply N.eqb_neq. rewrite size_cons. lia.
Qed.

Lemma split_loop_tokens (fuel : nat) (d pre suf : std_string) (r : list std_string) :
  fits (pre ++ suf) -> suf <> [] -> (List.length suf <= fuel)%nat ->
  split_loop fuel (pre ++ suf) d r (size pre)
             (find_first_of (pre ++ suf) d (size pre))
  = Ret (r ++ tokens d suf).
Proof.
  revert pre suf r. induction fuel as [|fuel IH]; intros pre suf r Hfit Hne Hlen.
  - destruct suf; [congruence | cbn in Hlen; lia].
  - pose proof npos_succ as Hn. pose proof Hfit as Hfit'.
    unfold fits in Hfit'. rewrite size_app in Hfit'.
    cbn [split_loop].
    replace (size pre =? npos) with false by (symmetry; apply N.eqb_neq; lia).
    destruct (first_delim d suf) as [Hnd | (tok & c & rest & -> & Htok & Hc)].
    + rewrite find_first_of_no_delim by assumption.
      replace (npos =? size pre) with false by (symmetry; apply N.eqb_neq; lia).
      cbn [negb]. rewrite size_sub_small by lia.
      rewrite substr_suffix by lia.
      cbn [bind]. rewrite N.eqb_refl. cbn [orb].
      now rewrite tokens_no_delim, opt_tok_cons.
    + rewrite find_first_of_delim by assumption.
      rewrite split_push by assumption. cbn [bind].
      rewrite !size_app, size_cons in Hfit'.
      replace (size pre + size tok =? npos) with false
        by (symmetry; apply N.eqb_neq; lia).
      cbn [orb]. rewrite !size_app, size_cons.
      rewrite size_sub_small by lia.
      rewrite tokens_delim by assumption.
      destruct rest as [|b rest].
      * replace (size pre + size tok =? size pre + (size tok + (size [] + 1)) - 1)
          with true by (symmetry; apply N.eqb_eq; rewrite size_nil; lia).
        cbn [tokens tokens_aux]. now rewrite app_nil_r.
      * replace (size pre + size tok =? size pre + (size tok + (size (b :: rest) + 1)) - 1)
          with false by (symmetry; apply N.eqb_neq; rewrite size_cons; lia).
        rewrite size_add_small by lia.
        replace (size pre + size tok + 1) with (size (pre ++ tok ++ [c]))
          by (rewrite !size_app, size_cons, size_nil; lia).
        replace (pre ++ tok ++ c :: b :: rest) with ((pre ++ tok ++ [c]) ++ b :: rest)
          by (now rewrite <- !app_assoc).
        rewrite IH.
        -- now rewrite app_assoc.
        -- now rewrite <- !app_assoc.
        -- discriminate.
        -- rewrite length_app in Hlen. cbn in Hlen |- *. lia.
Qed.

(** On a non-empty string [split] returns the tokens. *)
Lemma split_tokens (s d : std_string) :
  fits s -> s <> [] -> split s d = Ret (tokens d s).
Proof.
  intros Hfit Hne. unfold split.
  apply (split_loop_tokens (S (List.length s)) d [] s []); auto.
Qed.

(** On the empty string [split] pushes the empty substring. *)
Lemma split_nil (d : std_string) : split [] d = Ret [[]].
Proof. reflexivity. Qed.

(** [split] always returns: the bound on the loop is never reached, and
    [substr] never throws. *)
Lemma split_total (s d : std_string) :
  fits s -> exists segs, split s d = Ret segs.
Proof.
  intros Hfit. destruct s as [|c s].
  - exists [[]]. apply split_nil.
  - exists (tokens d (c :: s)). apply split_tokens; [assumption | discriminate].
Qed.

(** ** [to_str] joins the segments *)

Lemma fold_left_append (sep : ascii) (l : list std_string) (ss : std_string) :
  fold_left (fun ss p => ss ++ p ++ [sep]) l ss
  = ss ++ List.concat (map (fun p => p ++ [sep]) l).
Proof.
  revert ss. induction l as [|x l IH]; intros ss; cbn.
  - now rewrite app_nil_r.
  - rewrite IH, <- !app_assoc. reflexivity.
Qed.

Lemma join_cons (sep : ascii) (x : std_string) (l : list std_string) :
  join sep (x :: l) = x ++ match l with [] => [] | _ :: _ => sep :: join sep l end.
Proof. destruct l; cbn; [now rewrite app_nil_r | reflexivity]. Qed.

Lemma concat_join (sep : ascii) (segs : list std_string) :
  segs <> [] -> List.concat (map (fun p => p ++ [sep]) segs) = join sep segs ++ [sep].
Proof.
  induction segs as [|x l IH]; intros Hne; [congruence|].
  destruct l as [|y l].
  - cbn. now rewrite app_nil_r.
  - change (List.concat (map (fun p => p ++ [sep]) (x :: y :: l)))
      with ((x ++ [sep]) ++ List.concat (map (fun p => p ++ [sep]) (y :: l))).
    rewrite IH by discriminate.
    rewrite (join_cons sep x), <- !app_assoc. reflexivity.
Qed.

Lemma pop_back_snoc (s : std_string) (c : ascii) : pop_back (s ++ [c]) = Ret s.
Proof.
  unfold pop_back. rewrite removelast_last.
  destruct s; reflexivity.
Qed.

Lemma to_str_join (v : FilePath) (target : Platform) :
  path_ v <> [] ->
  to_str v target = Ret (root_prefix v ++ join (separator target) (path_ v)).
Proof.
  intros Hne. unfold to_str. fold (root_prefix v).
  assert (H : fold_left
                (fun ss p => match target with
                             | UNIX => ss ++ p ++ str "/"
                             | WINDOWS => ss ++ p ++ str "\"
                             end) (path_ v) (root_prefix v)
              = (root_prefix v ++ join (separator target) (path_ v))
                  ++ [separator target]).
  { destruct target; cbn [separator];
      (etransitivity; [apply fold_left_append|]);
      rewrite concat_join by assumption; now rewrite app_assoc. }
  rewrite H. apply pop_back_snoc.
Qed.

(** ** Tokens of a joined sequence *)

Lemma tokens_join (d : std_string) (sep : ascii) (segs : list std_string) :
  Forall (segment d) segs -> mem_char sep d = true ->
  tokens d (join sep segs) = segs.
Proof.
  intros H Hsep. induction H as [|x l [Hx Hnd] Hl IH]; [reflexivity|].
  rewrite join_cons. destruct l as [|y l].
  - rewrite app_nil_r, tokens_no_delim by assumption. now apply opt_tok_cons.
  - rewrite tokens_delim by assumption. rewrite IH.
    now rewrite opt_tok_cons.
Qed.

Lemma tokens_aux_segments (d cur s : std_string) :
  no_delim d cur -> Forall (segment d) (tokens_aux d cur s).
Proof.
  revert cur. induction s as [|c s IH]; intros cur Hcur; cbn.
  - destruct cur; constructor; [|constructor]. split; [discriminate | assumption].
  - destruct (mem_char c d) eqn:Hc.
    + destruct cur.
      * apply IH. constructor.
      * constructor; [split; [discriminate | assumption] | apply IH; constructor].
    + apply IH. apply Forall_app. split; [assumption | now repeat constructor].
Qed.

Lemma tokens_segments (d s : std_string) : Forall (segment d) (tokens d s).
Proof. apply tokens_aux_segments. constructor. Qed.

Lemma length_join_cons (sep : ascii) (x : std_string) (l : list std_string) :
  (List.length (join sep (x :: l)) <= List.length x + 1 + List.length (join sep l))%nat.
Proof.
  rewrite join_cons, length_app. destruct l; cbn [List.length]; lia.
Qed.

Lemma length_join_tokens_aux (d : std_string) (sep : ascii) (cur s : std_string) :
  (List.length (join sep (tokens_aux d cur s)) <= List.length cur + List.length s)%nat.
Proof.
  revert cur. induction s as [|c s IH]; intros cur; cbn [tokens_aux].
  - destruct cur; cbn; lia.
  - destruct (mem_char c d).
    + destruct cur as [|a cur].
      * specialize (IH []). cbn [List.length] in *. lia.
      * pose proof (length_join_cons sep (a :: cur) (tokens_aux d [] s)).
        specialize (IH []). cbn [List.length] in *. lia.
    + specialize (IH (cur ++ [c])). rewrite length_app in IH.
      cbn [List.length] in *. lia.
Qed.

Lemma length_join_tokens (d : std_string) (sep : ascii) (s : std_string) :
  (List.length (join sep (tokens d s)) <= List.length s)%nat.
Proof. apply (length_join_tokens_aux d sep [] s). Qed.

Lemma fits_shorter (s t : std_string) :
  (List.length t <= List.length s)%nat -> fits s -> fits t.
Proof. unfold fits, size. lia. Qed.

Lemma join_not_nil (sep : ascii) (x : std_string) (l : list std_string) :
  x <> [] -> join sep (x :: l) <> [].
Proof. rewrite join_cons. destruct x; [congruence | discriminate]. Qed.

(** ** Parsing: [set] on the shapes of its input *)

Lemma set_unix (s : std_string) :
  fits s -> s <> [] ->
  set s UNIX = Ret {| path_ := tokens (str "/") s;
                      is_absolute_ := Ascii.eqb (at_ s 0) "/";
                      platform_ := UNIX |}.
Proof.
  intros Hfit Hne. unfold set. rewrite split_tokens by assumption.
  cbn [bind]. destruct s as [|c s]; [congruence|].
  rewrite size_cons. replace (size s + 1 =? 0) with false; [reflexivity|].
  symmetry. apply N.eqb_neq. lia.
Qed.

Lemma set_windows_relative (s : std_string) :
  fits s -> s <> [] -> is_drive_prefix s = false ->
  set s WINDOWS = Ret {| path_ := tokens (str "/\") s;
                         is_absolute_ := false;
                         platform_ := WINDOWS |}.
Proof.
  intros Hfit Hne Hd. unfold set. rewrite Hd, split_tokens by assumption.
  reflexivity.
Qed.

Lemma is_drive_prefix_cons (c k sp : ascii) (rest : std_string) :
  is_drive_prefix (c :: k :: sp :: rest)
  = is_drive_designator [c; k] && mem_char sp (str "/\").
Proof.
  unfold is_drive_prefix, is_drive_designator, at_, mem_char. cbn [nth existsb str list_ascii_of_string].
  replace (3 <=? size (c :: k :: sp :: rest)) with true.
  - cbn [andb]. rewrite orb_false_r.
    rewrite (orb_comm (Ascii.eqb sp "/")). reflexivity.
  - symmetry. apply N.leb_le. rewrite !size_cons. lia.
Qed.

Lemma is_drive_prefix_inv (s : std_string) :
  is_drive_prefix s = true ->
  exists c k sp rest, s = c :: k :: sp :: rest
    /\ is_drive_designator [c; k] = true /\ mem_char sp (str "/\") = true.
Proof.
  intros H. destruct s as [|c [|k [|sp rest]]]; try discriminate H.
  rewrite is_drive_prefix_cons in H. apply andb_prop in H.
  exists c, k, sp, rest. tauto.
Qed.

Lemma set_windows_drive (c k sp : ascii) (rest : std_string) :
  fits rest -> rest <> [] ->
  is_drive_designator [c; k] = true -> mem_char sp (str "/\") = true ->
  set (c :: k :: sp :: rest) WINDOWS
  = Ret {| path_ := [c; k] :: tokens (str "/\") rest;
           is_absolute_ := true;
           platform_ := WINDOWS |}.
Proof.
  intros Hfit Hne Hd Hsp. unfold set.
  rewrite is_drive_prefix_cons, Hd, Hsp. cbn [andb].
  assert (Hsub : substr (c :: k :: sp :: rest) 0 2 = Ret [c; k]).
  { change (c :: k :: sp :: rest) with ([] ++ [c; k] ++ sp :: rest).
    apply (substr_middle [] [c; k] (sp :: rest)).
    unfold size. cbn [List.length]. lia. }
  rewrite Hsub. cbn [bind erase_front skipn].
  rewrite split_tokens by assumption. reflexivity.
Qed.

(** [set] always returns. *)
Lemma set_total (s : std_string) (P : Platform) :
  fits s -> exists v, set s P = Ret v.
Proof.
  intros Hfit. destruct P.
  - unfold set. destruct (split_total s (str "/") Hfit) as [segs ->].
    eexists. reflexivity.
  - destruct (is_drive_prefix s) eqn:Hd.
    + destruct (is_drive_prefix_inv s Hd) as (c & k & sp & rest & -> & Hck & Hsp).
      assert (Hrest : fits rest).
      { apply (fits_shorter (c :: k :: sp :: rest)); [cbn; lia | assumption]. }
      destruct rest as [|b rest].
      * unfold set. rewrite Hd. eexists. reflexivity.
      * eexists. apply set_windows_drive; auto. discriminate.
    + unfold set. rewrite Hd.
      destruct (split_total s (str "/\") Hfit) as [segs ->].
      eexists. reflexivity.
Qed.

(** ** Parsing a serialised value *)

(** The first character of a joined sequence is the first character of its
    first segment, which is no delimiter. *)
Lemma join_head (d : std_string) (sep : ascii) (x : std_string) (l : list std_string) :
  segment d x ->
  exists a rest, join sep (x :: l) = a :: rest /\ mem_char a d = false.
Proof.
  intros [Hx Hnd]. rewrite join_cons. destruct x as [|a x]; [congruence|].
  inversion Hnd; subst. eexists a, _. split; [reflexivity | assumption].
Qed.

Lemma mem_char_slash (a : ascii) :
  mem_char a (str "/") = false -> Ascii.eqb a "/" = false.
Proof. unfold mem_char. cbn. now rewrite orb_false_r. Qed.

Lemma round_trip_unix (s : std_string) :
  fits s -> parses_reparsable s UNIX = true -> round_trip s UNIX.
Proof.
  intros Hfit Hsafe. destruct s as [|c s].
  - exists {| path_ := [[]]; is_absolute_ := false; platform_ := UNIX |}, [].
    repeat split; reflexivity.
  - assert (Hne : c :: s <> []) by discriminate.
    unfold parses_reparsable in Hsafe. rewrite set_unix in Hsafe by assumption.
    pose proof (tokens_segments (str "/") (c :: s)) as Hsegs.
    pose proof (length_join_tokens (str "/") "/" (c :: s)) as Hlen.
    remember (tokens (str "/") (c :: s)) as segs eqn:Esegs.
    unfold reparsable, empty in Hsafe. cbn [platform_ path_] in Hsafe.
    destruct segs as [|x l]; [discriminate Hsafe|]. clear Hsafe.
    set (v := {| path_ := x :: l; is_absolute_ := Ascii.eqb (at_ (c :: s) 0) "/";
                 platform_ := UNIX |}).
    exists v, (root_prefix v ++ join (separator UNIX) (path_ v)).
    split; [rewrite set_unix by assumption; now rewrite <- Esegs|].
    split; [apply to_str_join; discriminate|].
    subst v. unfold root_prefix. cbn [is_absolute_ platform_ path_ separator at_ nth].
    destruct (Ascii.eqb c "/") eqn:Hc.
    + apply Ascii.eqb_eq in Hc. subst c.
      change (tokens (str "/") ("/"%char :: s))
        with (tokens (str "/") ([] ++ "/"%char :: s)) in Esegs.
      rewrite tokens_delim in Esegs by (constructor || reflexivity).
      cbn [opt_tok app] in Esegs.
      pose proof (length_join_tokens (str "/") "/" s) as Hlen'.
      rewrite <- Esegs in Hlen'.
      change (str "/" ++ join "/" (x :: l)) with ("/"%char :: join "/" (x :: l)).
      rewrite set_unix.
      * change ("/"%char :: join "/" (x :: l))
          with ([] ++ "/"%char :: join "/" (x :: l)).
        rewrite tokens_delim by (constructor || reflexivity).
        rewrite tokens_join by (assumption || reflexivity). reflexivity.
      * apply (fits_shorter ("/"%char :: s)); [cbn [List.length]; lia | assumption].
      * discriminate.
    + cbn [app].
      destruct (join_head (str "/") "/" x l) as (a & rest & Hj & Ha).
      { now inversion Hsegs. }
      rewrite set_unix.
      * rewrite tokens_join by (assumption || reflexivity).
        rewrite Hj. cbn [at_ nth]. now rewrite (mem_char_slash a Ha).
      * now apply (fits_shorter (c :: s)).
      * apply join_not_nil. inversion Hsegs as [|? ? [Hx _] _]. assumption.
Qed.

(** The serialisation of a relative WINDOWS value starts with a drive
    prefix only when its first segment is a drive designator and another
    segment follows. *)
Lemma is_drive_prefix_join (x : std_string) (l : list std_string) :
  Forall (segment (str "/\")) (x :: l) ->
  (2 <=? List.length (x :: l))%nat && is_drive_designator x = false ->
  is_drive_prefix (join "\" (x :: l)) = false.
Proof.
  intros Hsegs Hd. inversion Hsegs as [|? ? [Hx Hnd] Hl]; subst.
  rewrite join_cons.
  destruct x as [|a [|b [|c x]]]; [congruence | | |].
  - destruct l as [|y l]; [reflexivity|].
    destruct (join_head (str "/\") "\" y l) as (e & rest & -> & _).
    { now inversion Hl. }
    cbn [app]. rewrite is_drive_prefix_cons.
    unfold is_drive_designator. cbn. now rewrite !andb_false_r.
  - destruct l as [|y l]; [reflexivity|].
    cbn [app]. rewrite is_drive_prefix_cons.
    cbn [List.length Nat.leb andb] in Hd. now rewrite Hd.
  - cbn [app]. rewrite is_drive_prefix_cons.
    inversion Hnd as [|? ? _ Hnd1]; subst.
    inversion Hnd1 as [|? ? _ Hnd2]; subst.
    inversion Hnd2 as [|? ? Hc _]; subst.
    rewrite Hc. apply andb_false_r.
Qed.

Lemma round_trip_windows (s : std_string) :
  fits s -> parses_reparsable s WINDOWS = true -> round_trip s WINDOWS.
Proof.
  intros Hfit Hsafe. unfold parses_reparsable in Hsafe.
  destruct (is_drive_prefix s) eqn:Hd.
  - destruct (is_drive_prefix_inv s Hd) as (c & k & sp & rest & -> & Hck & Hsp).
    assert (Hrest : fits rest).
    { apply (fits_shorter (c :: k :: sp :: rest)); [cbn; lia | assumption]. }
    destruct rest as [|b rest].
    + exists {| path_ := [[c; k]; []]; is_absolute_ := true; platform_ := WINDOWS |},
             [c; k; "\"%char].
      split; [unfold set; rewrite Hd; reflexivity|].
      split; [reflexivity|].
      unfold set. rewrite is_drive_prefix_cons, Hck. reflexivity.
    + assert (Hne : b :: rest <> []) by discriminate.
      rewrite set_windows_drive in Hsafe by assumption.
      pose proof (tokens_segments (str "/\") (b :: rest)) as Hsegs.
      pose proof (length_join_tokens (str "/\") "\" (b :: rest)) as Hlen.
      remember (tokens (str "/\") (b :: rest)) as segs eqn:Esegs.
      unfold reparsable in Hsafe. cbn [platform_ is_absolute_ path_] in Hsafe.
      destruct segs as [|y l]; [discriminate Hsafe|]. clear Hsafe.
      set (v := {| path_ := [c; k] :: y :: l; is_absolute_ := true;
                   platform_ := WINDOWS |}).
      exists v, (root_prefix v ++ join (separator WINDOWS) (path_ v)).
      split; [rewrite set_windows_drive by assumption; now rewrite <- Esegs|].
      split; [apply to_str_join; discriminate|].
      subst v. unfold root_prefix. cbn [is_absolute_ platform_ path_ separator app].
      rewrite (join_cons "\" [c; k]). cbn [app].
      rewrite set_windows_drive; try assumption; try reflexivity.
      * rewrite tokens_join by (assumption || reflexivity). reflexivity.
      * now apply (fits_shorter (b :: rest)).
      * apply join_not_nil. inversion Hsegs as [|? ? [Hy _] _]. assumption.
  - destruct s as [|c s].
    + exists {| path_ := [[]]; is_absolute_ := false; platform_ := WINDOWS |}, [].
      repeat split; reflexivity.
    + assert (Hne : c :: s <> []) by discriminate.
      rewrite set_windows_relative in Hsafe by assumption.
      pose proof (tokens_segments (str "/\") (c :: s)) as Hsegs.
      pose proof (length_join_tokens (str "/\") "\" (c :: s)) as Hlen.
      remember (tokens (str "/\") (c :: s)) as segs eqn:Esegs.
      unfold reparsable, empty in Hsafe. cbn [platform_ is_absolute_ path_] in Hsafe.
      destruct segs as [|x l]; [discriminate Hsafe|].
      cbn [negb andb hd] in Hsafe. apply negb_true_iff in Hsafe.
      set (v := {| path_ := x :: l; is_absolute_ := false; platform_ := WINDOWS |}).
      exists v, (root_prefix v ++ join (separator WINDOWS) (path_ v)).
      split; [rewrite set_windows_relative by assumption; now rewrite <- Esegs|].
      split; [apply to_str_join; discriminate|].
      subst v. unfold root_prefix. cbn [is_absolute_ platform_ path_ separator app].
      rewrite set_windows_relative.
      * rewrite tokens_join by (assumption || reflexivity). reflexivity.
      * now apply (fits_shorter (c :: s)).
      * apply join_not_nil. inversion Hsegs as [|? ? [Hx _] _]. assumption.
      * now apply is_drive_prefix_join.
Qed.

(** ** Composition and navigation helpers *)

Lemma fold_left_push_back (l : list std_string) (r : FilePath) :
  fold_left (fun r p => {| path_ := path_ r ++ [p];
                           is_absolute_ := is_absolute_ r;
                           platform_ := platform_ r |}) l r
  = {| path_ := path_ r ++ l; is_absolute_ := is_absolute_ r;
       platform_ := platform_ r |}.
Proof.
  revert r. induction l as [|x l IH]; intros r; cbn [fold_left].
  - rewrite app_nil_r. now destruct r.
  - rewrite IH. cbn [path_ is_absolute_ platform_]. now rewrite <- app_assoc.
Qed.

Lemma Platform_eqb_eq (a b : Platform) : Platform_eqb a b = true <-> a = b.
Proof. destruct a, b; cbn; split; congruence. Qed.

Lemma string_eqb_neq (a b : std_string) : string_eqb a b = false <-> a <> b.
Proof. unfold string_eqb. destruct (list_eq_dec ascii_dec a b); split; congruence. Qed.

Lemma back_snoc (segs : list std_string) (x : std_string) : back (segs ++ [x]) = x.
Proof. unfold back. apply last_last. Qed.

Lemma empty_snoc (segs : list std_string) (x : std_string) (a : bool) (P : Platform) :
  empty {| path_ := segs ++ [x]; is_absolute_ := a; platform_ := P |} = false.
Proof. unfold empty. cbn [path_]. now destruct segs. Qed.

(** ** Strings of separators *)

Lemma tokens_all_delim (d s : std_string) :
  Forall (fun c => mem_char c d = true) s -> tokens d s = [].
Proof.
  intros H. unfold tokens. induction H as [|c s Hc _ IH]; cbn [tokens_aux].
  - reflexivity.
  - now rewrite Hc.
Qed.

Lemma mem_char_separators_unix (c : ascii) :
  mem_char c (separators UNIX) = true -> c = "/"%char.
Proof.
  unfold mem_char. cbn. rewrite orb_false_r. apply Ascii.eqb_eq.
Qed.

Lemma mem_char_separators_windows (c : ascii) :
  mem_char c (separators WINDOWS) = true -> c = "/"%char \/ c = "\"%char.
Proof.
  unfold mem_char. cbn. rewrite orb_false_r. intros H.
  apply orb_prop in H. destruct H as [H | H]; apply Ascii.eqb_eq in H; auto.
Qed.

Lemma is_drive_prefix_separator (c : ascii) (s : std_string) :
  mem_char c (separators WINDOWS) = true -> is_drive_prefix (c :: s) = false.
Proof.
  intros Hc. destruct s as [|k [|sp rest]]; [reflexivity | reflexivity |].
  rewrite is_drive_prefix_cons.
  destruct (mem_char_separators_windows c Hc) as [-> | ->]; reflexivity.
Qed.

(** ** Values whose serialisation parses to another value *)

(** [/] parses to the absolute value without segments; [to_str] writes the
    slash and [pop_back] removes it again, so the root serialises to the
    empty string. *)
Lemma to_str_unix_root :
  set (str "/") UNIX
  = Ret {| path_ := []; is_absolute_ := true; platform_ := UNIX |}
  /\ to_str {| path_ := []; is_absolute_ := true; platform_ := UNIX |} UNIX
     = Ret (str "").
Proof. split; reflexivity. Qed.

(** The empty string the root serialises to parses to a relative value. *)
Lemma round_trip_unix_root : ~ round_trip (str "/") UNIX.
Proof. intros H. run_round_trip H. Qed.

(** After a leading separator [C:] is an ordinary segment of a relative
    value; serialised, it stands first and reads as a drive prefix. *)
Lemma round_trip_relative_drive : ~ round_trip (str "\C:\a") WINDOWS.
Proof. intros H. run_round_trip H. Qed.

(** * The claims *)

(** ** C1: parse, serialise, parse again *)

(** C1, as stated, fails: the WINDOWS string [C:\\] (a drive prefix and a
    redundant separator) parses to the absolute value with the single segment
    [C:], which serialises to [C:]; that string has no third character and
    parses to a relative value. *)
Lemma round_trip_drive_root_counterexample :
  ~ round_trip (str "C:\\") WINDOWS.
Proof. intros H. run_round_trip H. Qed.

(** C1, amended: for every string [s] (of a length a [std::string] can have)
    and syntax [P] such that [set s P] is a value with at least one segment
    which, under WINDOWS, has a segment after the drive designator when it
    is absolute and does not start with a drive designator followed by
    another segment when it is relative, [to_str] in syntax [P] returns a
    string and [set] on that string returns the same value (same syntax,
    same absolute flag, same segments). *)
Theorem round_trip_reparsable (s : std_string) (P : Platform) :
  fits s -> parses_reparsable s P = true -> round_trip s P.
Proof.
  destruct P; [apply round_trip_unix | apply round_trip_windows].
Qed.

(** The theorem at the POSIX string [//usr///lib/]. *)
Lemma round_trip_reparsable_witness :
  fits (str "//usr///lib/") /\
  parses_reparsable (str "//usr///lib/") UNIX = true /\
  round_trip (str "//usr///lib/") UNIX.
Proof.
  assert (Hfit : fits (str "//usr///lib/")) by reflexivity.
  assert (Hsafe : parses_reparsable (str "//usr///lib/") UNIX = true)
    by reflexivity.
  exact (conj Hfit (conj Hsafe (round_trip_reparsable _ _ Hfit Hsafe))).
Defined.

(** ** C2: the empty string *)

(** C2: [set] on the empty string returns a relative value, but its segment
    sequence is not empty: it holds one segment, the empty string.  In
    [split] the test [find_pos != last_pos] compares [npos] with [0] and
    pushes [substr(0, npos)]. *)
Theorem set_empty_string (P : Platform) :
  set (str "") P
  = Ret {| path_ := [str ""]; is_absolute_ := false; platform_ := P |}.
Proof. destruct P; reflexivity. Qed.

(** ** C3: serialising a value without segments *)

(** C3: on a relative value without segments [to_str] writes nothing to the
    stream and then calls [pop_back] on the empty string, which is undefined
    behaviour; this is what [FilePath().to_str()] runs into. *)
Theorem to_str_no_segments_undefined (P target : Platform) :
  to_str {| path_ := []; is_absolute_ := false; platform_ := P |} target
  = Undefined
  /\ to_str (FilePath_default P) target = Undefined.
Proof. split; reflexivity. Qed.

(** ** C4: the drive-letter boundary *)

(** C4: [C:\Users\x] parses under WINDOWS to the absolute value with segments
    [C:], [Users], [x]; [C:] parses to the relative value with the single
    segment [C:]. *)
Theorem set_drive_letter_boundary :
  set (str "C:\Users\x") WINDOWS
  = Ret {| path_ := [str "C:"; str "Users"; str "x"]; is_absolute_ := true;
           platform_ := WINDOWS |}
  /\ set (str "C:") WINDOWS
     = Ret {| path_ := [str "C:"]; is_absolute_ := false;
              platform_ := WINDOWS |}.
Proof. split; reflexivity. Qed.

(** ** C5: when composition throws *)

(** C5: [operator/] throws exactly when the right operand is absolute or the
    two operands have different syntaxes; the tests come first, and in every
    other case the call returns a value. *)
Theorem operator_div_throws_iff (base addend : FilePath) :
  ((exists what, operator_div base addend = Throw what)
   <-> (is_absolute_ addend = true \/ platform_ base <> platform_ addend))
  /\ ((exists v, operator_div base addend = Ret v)
      <-> ~ (is_absolute_ addend = true \/ platform_ base <> platform_ addend)).
Proof.
  unfold operator_div.
  destruct (is_absolute_ addend) eqn:Ha.
  - split; split.
    + auto.
    + intros _. eexists. reflexivity.
    + intros [v Hv]. discriminate Hv.
    + intros H. exfalso. apply H. auto.
  - destruct (Platform_eqb (platform_ base) (platform_ addend)) eqn:Hp; cbn [negb].
    + apply Platform_eqb_eq in Hp. split; split.
      * intros [w Hw]. discriminate Hw.
      * intros [H | H]; [discriminate H | contradiction].
      * intros _ [H | H]; [discriminate H | contradiction].
      * intros _. eexists. reflexivity.
    + assert (Hne : platform_ base <> platform_ addend).
      { intros E. apply Platform_eqb_eq in E. congruence. }
      split; split.
      * auto.
      * intros _. eexists. reflexivity.
      * intros [v Hv]. discriminate Hv.
      * intros H. exfalso. apply H. auto.
Qed.

(** The theorem at [/usr] and the absolute right operand [/bin]. *)
Lemma operator_div_throws_iff_witness :
  exists base addend,
    set (str "/usr") UNIX = Ret base /\ set (str "/bin") UNIX = Ret addend
    /\ exists what, operator_div base addend = Throw what.
Proof.
  eexists. eexists. split; [reflexivity|]. split; [reflexivity|].
  apply (proj1 (operator_div_throws_iff _ _)). left. reflexivity.
Defined.

(** ** C6: what composition returns *)

(** C6: for a relative right operand of the same syntax, [operator/] returns
    the left operand's syntax and absolute flag with the left operand's
    segments followed by the right operand's, unchanged and in order. *)
Theorem operator_div_concat (base addend : FilePath) :
  is_absolute_ addend = false -> platform_ base = platform_ addend ->
  operator_div base addend
  = Ret {| path_ := path_ base ++ path_ addend;
           is_absolute_ := is_absolute_ base;
           platform_ := platform_ base |}.
Proof.
  intros Ha Hp. unfold operator_div. rewrite Ha.
  apply Platform_eqb_eq in Hp. rewrite Hp. cbn [negb].
  now rewrite fold_left_push_back.
Qed.

(** The theorem at [a/b] and [c]. *)
Lemma operator_div_concat_witness :
  exists base addend,
    set (str "a/b") UNIX = Ret base /\ set (str "c") UNIX = Ret addend
    /\ is_absolute_ addend = false /\ platform_ base = platform_ addend
    /\ operator_div base addend
       = Ret {| path_ := [str "a"; str "b"; str "c"]; is_absolute_ := false;
                platform_ := UNIX |}.
Proof.
  eexists. eexists. split; [reflexivity|]. split; [reflexivity|].
  split; [reflexivity|]. split; [reflexivity|].
  exact (operator_div_concat
           {| path_ := [str "a"; str "b"]; is_absolute_ := false; platform_ := UNIX |}
           {| path_ := [str "c"]; is_absolute_ := false; platform_ := UNIX |}
           eq_refl eq_refl).
Defined.

(** ** C7: strings made of separators *)

(** C7, as stated, fails under WINDOWS: the one-character string [\] consists
    solely of a WINDOWS separator and does not parse to an absolute value;
    [set] marks a WINDOWS value absolute only after a drive prefix. *)
Lemma set_separators_windows_counterexample :
  str "\" <> []
  /\ Forall (fun c => mem_char c (separators WINDOWS) = true) (str "\")
  /\ set (str "\") WINDOWS
     = Ret {| path_ := []; is_absolute_ := false; platform_ := WINDOWS |}
  /\ set (str "\") WINDOWS
     <> Ret {| path_ := []; is_absolute_ := true; platform_ := WINDOWS |}.
Proof.
  split; [discriminate|]. split; [repeat constructor|].
  split; [reflexivity | discriminate].
Qed.

(** C7, amended: a non-empty string made solely of separators of its syntax
    parses to a value with no segments, which is absolute under POSIX and
    relative under WINDOWS. *)
Theorem set_separators_only (s : std_string) (P : Platform) :
  fits s -> s <> [] ->
  Forall (fun c => mem_char c (separators P) = true) s ->
  set s P = Ret {| path_ := [];
                   is_absolute_ := match P with UNIX => true | WINDOWS => false end;
                   platform_ := P |}.
Proof.
  intros Hfit Hne Hsep. destruct P; cbn [separators] in Hsep.
  - rewrite set_unix by assumption.
    rewrite (tokens_all_delim _ _ Hsep).
    destruct s as [|c s]; [congruence|].
    inversion Hsep as [|? ? Hc _]; subst.
    now rewrite (mem_char_separators_unix c Hc).
  - rewrite set_windows_relative; try assumption.
    + now rewrite (tokens_all_delim _ _ Hsep).
    + destruct s as [|c s]; [congruence|].
      inversion Hsep as [|? ? Hc _]; subst.
      now apply is_drive_prefix_separator.
Qed.

(** The theorem at the POSIX string [//]. *)
Lemma set_separators_only_witness :
  fits (str "//") /\ str "//" <> []
  /\ Forall (fun c => mem_char c (separators UNIX) = true) (str "//")
  /\ set (str "//") UNIX
     = Ret {| path_ := []; is_absolute_ := true; platform_ := UNIX |}.
Proof.
  assert (H1 : fits (str "//")) by reflexivity.
  assert (H2 : str "//" <> []) by discriminate.
  assert (H3 : Forall (fun c => mem_char c (separators UNIX) = true) (str "//"))
    by (repeat constructor).
  exact (conj H1 (conj H2 (conj H3 (set_separators_only _ UNIX H1 H2 H3)))).
Defined.

(** ** C8: the parent of a relative value *)

(** C8: on a relative value with a last segment [x], [parent_path] returns
    the value without [x] when [x] is neither [.] nor [..], and the value
    with a further segment [..] after [x] when [x] is [.] or [..].  Whatever
    the absolute flag, a value whose last segment is [..] gets a further
    [..]; an absolute one is then handed to [make_absolute]. *)
Theorem parent_path_relative (NATIVE : Platform) (resolve : std_string -> N + std_string)
    (segs : list std_string) (x : std_string) (P : Platform) :
  (x <> str "." -> x <> str ".." ->
   parent_path NATIVE resolve
     {| path_ := segs ++ [x]; is_absolute_ := false; platform_ := P |}
   = Ret {| path_ := segs; is_absolute_ := false; platform_ := P |})
  /\ (x = str "." \/ x = str ".." ->
      parent_path NATIVE resolve
        {| path_ := segs ++ [x]; is_absolute_ := false; platform_ := P |}
      = Ret {| path_ := segs ++ [x; str ".."]; is_absolute_ := false;
               platform_ := P |})
  /\ (forall a : bool,
      parent_path NATIVE resolve
        {| path_ := segs ++ [str ".."]; is_absolute_ := a; platform_ := P |}
      = (if a then make_absolute NATIVE resolve else Ret)
          {| path_ := segs ++ [str ".."; str ".."]; is_absolute_ := a;
             platform_ := P |}).
Proof.
  unfold parent_path. rewrite !empty_snoc.
  cbn [negb andb path_ is_absolute_ platform_]. rewrite !back_snoc.
  split; [|split].
  - intros H1 H2. apply string_eqb_neq in H1, H2. rewrite H1, H2.
    cbn [negb andb]. now rewrite removelast_last.
  - intros [-> | ->]; cbn [negb andb]; now rewrite <- app_assoc.
  - intros a. rewrite empty_snoc. cbn [negb andb]. rewrite <- app_assoc.
    now destruct a.
Qed.

(** The theorem at the relative values [a/b] and [a/..]. *)
Lemma parent_path_relative_witness :
  parent_path UNIX (fun _ => inl 2)
    {| path_ := [str "a"; str "b"]; is_absolute_ := false; platform_ := UNIX |}
  = Ret {| path_ := [str "a"]; is_absolute_ := false; platform_ := UNIX |}
  /\ parent_path UNIX (fun _ => inl 2)
       {| path_ := [str "a"; str ".."]; is_absolute_ := false; platform_ := UNIX |}
     = Ret {| path_ := [str "a"; str ".."; str ".."]; is_absolute_ := false;
              platform_ := UNIX |}.
Proof.
  split.
  - apply (proj1 (parent_path_relative UNIX (fun _ => inl 2) [str "a"] (str "b") UNIX));
      discriminate.
  - apply (proj1 (proj2 (parent_path_relative UNIX (fun _ => inl 2)
                                                [str "a"] (str "..") UNIX))).
    right. reflexivity.
Defined.

(** ** C9: the separators [to_str] writes *)

(** C9, as stated, fails: the absolute POSIX value with the single segment
    [a], serialised for WINDOWS, is [/a]; the leading character is always
    the slash, not the separator of the target syntax. *)
Lemma to_str_root_prefix_counterexample :
  to_str {| path_ := [str "a"]; is_absolute_ := true; platform_ := UNIX |} WINDOWS
  = Ret (str "/a")
  /\ serialize_spec
       {| path_ := [str "a"]; is_absolute_ := true; platform_ := UNIX |} WINDOWS
     = str "\a"
  /\ to_str {| path_ := [str "a"]; is_absolute_ := true; platform_ := UNIX |} WINDOWS
     <> Ret (serialize_spec
               {| path_ := [str "a"]; is_absolute_ := true; platform_ := UNIX |}
               WINDOWS).
Proof.
  split; [reflexivity|]. split; [reflexivity | discriminate].
Qed.

(** C9, amended: for a value with at least one segment, [to_str] returns the
    segments joined with the separator of the target syntax, after a single
    slash when the value is absolute with POSIX syntax, whatever the target
    syntax. *)
Theorem to_str_target_separator (v : FilePath) (target : Platform) :
  path_ v <> [] ->
  to_str v target
  = Ret ((if is_absolute_ v && Platform_eqb (platform_ v) UNIX
          then str "/" else [])
         ++ join (separator target) (path_ v)).
Proof.
  intros Hne. rewrite to_str_join by assumption. unfold root_prefix.
  destruct (is_absolute_ v), (platform_ v); reflexivity.
Qed.

(** The theorem at the absolute POSIX value [/usr/lib] and the target
    WINDOWS. *)
Lemma to_str_target_separator_witness :
  path_ {| path_ := [str "usr"; str "lib"]; is_absolute_ := true;
           platform_ := UNIX |} <> []
  /\ to_str {| path_ := [str "usr"; str "lib"]; is_absolute_ := true;
               platform_ := UNIX |} WINDOWS
     = Ret (str "/usr\lib").
Proof.
  assert (H : path_ {| path_ := [str "usr"; str "lib"]; is_absolute_ := true;
                       platform_ := UNIX |} <> []) by discriminate.
  exact (conj H (to_str_target_separator _ WINDOWS H)).
Defined.

(** ** C10: the parent of a relative value without segments *)

(** C10: on a relative value without segments, such as [FilePath()],
    [parent_path] returns the relative value whose only segment is [..]. *)
Theorem parent_path_no_segments (NATIVE : Platform)
    (resolve : std_string -> N + std_string) (P : Platform) :
  parent_path NATIVE resolve
    {| path_ := []; is_absolute_ := false; platform_ := P |}
  = Ret {| path_ := [str ".."]; is_absolute_ := false; platform_ := P |}
  /\ parent_path NATIVE resolve (FilePath_default NATIVE)
     = Ret {| path_ := [str ".."]; is_absolute_ := false; platform_ := NATIVE |}.
Proof. split; reflexivity. Qed.

(** * Further properties *)

(** ** More on the tokenizer *)

Lemma concat_tokens_aux (d cur s : std_string) :
  List.concat (tokens_aux d cur s) = cur ++ strip d s.
Proof.
  revert cur. induction s as [|c s IH]; intros cur; cbn [tokens_aux strip filter].
  - destruct cur; cbn; now rewrite ?app_nil_r.
  - fold (strip d s). destruct (mem_char c d); cbn [negb].
    + destruct cur as [|a cur].
      * apply IH.
      * cbn [List.concat]. now rewrite IH.
    + rewrite IH, <- app_assoc. reflexivity.
Qed.

Lemma tokens_aux_snoc_delim (d cur s : std_string) (c : ascii) :
  mem_char c d = true -> tokens_aux d cur (s ++ [c]) = tokens_aux d cur s.
Proof.
  intros Hc. revert cur. induction s as [|a s IH]; intros cur; cbn [app tokens_aux].
  - rewrite Hc. now destruct cur.
  - destruct (mem_char a d); [destruct cur|]; now rewrite IH.
Qed.

Lemma tokens_aux_double_delim (d cur a b : std_string) (c c' : ascii) :
  mem_char c d = true -> mem_char c' d = true ->
  tokens_aux d cur (a ++ c :: c' :: b) = tokens_aux d cur (a ++ c :: b).
Proof.
  intros Hc Hc'. revert cur. induction a as [|x a IH]; intros cur; cbn [app tokens_aux].
  - rewrite Hc, Hc'. now destruct cur.
  - destruct (mem_char x d); [destruct cur|]; now rewrite IH.
Qed.

Lemma strip_nil_all_delim (d s : std_string) :
  strip d s = [] -> Forall (fun c => mem_char c d = true) s.
Proof.
  induction s as [|c s IH]; cbn [strip filter]; intros H; [constructor|].
  destruct (mem_char c d) eqn:Hc; cbn [negb] in H; [|discriminate H].
  constructor; [assumption | now apply IH].
Qed.

Lemma tokens_nil_all_delim (d s : std_string) :
  tokens d s = [] -> Forall (fun c => mem_char c d = true) s.
Proof.
  intros H. apply strip_nil_all_delim.
  pose proof (concat_tokens_aux d [] s) as Hc. fold (tokens d s) in Hc.
  rewrite H in Hc. cbn in Hc. now symmetry.
Qed.

Lemma app_cons_not_nil (a b : std_string) (c : ascii) : a ++ c :: b <> [].
Proof. destruct a; discriminate. Qed.

(** ** Properties of [split] *)

(** Every segment [split] takes from a non-empty string is non-empty and
    holds no delimiter. *)
Theorem split_segments (s d : std_string) :
  fits s -> s <> [] ->
  exists segs, split s d = Ret segs /\ Forall (segment d) segs.
Proof.
  intros Hfit Hne. exists (tokens d s). split.
  - now apply split_tokens.
  - apply tokens_segments.
Qed.

(** The theorem at the string [a//b/] split on the slash. *)
Lemma split_segments_witness :
  fits (str "a//b/") /\ str "a//b/" <> []
  /\ exists segs, split (str "a//b/") (str "/") = Ret segs
                  /\ Forall (segment (str "/")) segs.
Proof.
  assert (H1 : fits (str "a//b/")) by reflexivity.
  assert (H2 : str "a//b/" <> []) by discriminate.
  exact (conj H1 (conj H2 (split_segments _ (str "/") H1 H2))).
Defined.

(** [split] returns on every string: [substr] is never called past the end
    and the loop ends.  The segments, concatenated, are the string without
    its delimiters: no other character is lost or moved. *)
Theorem split_keeps_characters (s d : std_string) :
  fits s ->
  exists segs, split s d = Ret segs /\ List.concat segs = strip d s.
Proof.
  intros Hfit. destruct s as [|c s].
  - exists [[]]. split; reflexivity.
  - exists (tokens d (c :: s)). split.
    + apply split_tokens; [assumption | discriminate].
    + apply (concat_tokens_aux d [] (c :: s)).
Qed.

(** The theorem at the string [/usr\lib] split on both separators. *)
Lemma split_keeps_characters_witness :
  fits (str "/usr\lib")
  /\ exists segs, split (str "/usr\lib") (str "/\") = Ret segs
                  /\ List.concat segs = str "usrlib".
Proof.
  assert (H1 : fits (str "/usr\lib")) by reflexivity.
  exact (conj H1 (split_keeps_characters _ (str "/\") H1)).
Defined.



(** A repeated delimiter and a trailing delimiter do not change what
    [split] returns. *)
Theorem split_redundant_delimiters (d a b : std_string) (c c' : ascii) :
  mem_char c d = true -> mem_char c' d = true ->
  fits (a ++ c :: c' :: b) ->
  split (a ++ c :: c' :: b) d = split (a ++ c :: b) d
  /\ (a <> [] -> split (a ++ [c]) d = split a d).
Proof.
  intros Hc Hc' Hfit. split.
  - rewrite !split_tokens; try apply app_cons_not_nil; try assumption.
    + unfold tokens. now rewrite tokens_aux_double_delim.
    + apply (fits_shorter (a ++ c :: c' :: b)); [|assumption].
      rewrite !length_app. cbn [List.length]. lia.
  - intros Ha.
    assert (Hfa : fits (a ++ [c])).
    { apply (fits_shorter (a ++ c :: c' :: b)); [|assumption].
      rewrite !length_app. cbn [List.length]. lia. }
    rewrite !split_tokens; try apply app_cons_not_nil; try assumption.
    + unfold tokens. now rewrite tokens_aux_snoc_delim.
    + apply (fits_shorter (a ++ [c])); [|assumption].
      rewrite length_app. lia.
Qed.

(** The theorem at [usr//lib] and [usr/]. *)
Lemma split_redundant_delimiters_witness :
  mem_char "/" (str "/") = true
  /\ fits (str "usr" ++ "/"%char :: "/"%char :: str "lib")
  /\ split (str "usr//lib") (str "/") = split (str "usr/lib") (str "/")
  /\ split (str "usr/") (str "/") = split (str "usr") (str "/").
Proof.
  assert (H1 : mem_char "/" (str "/") = true) by reflexivity.
  assert (H2 : fits (str "usr" ++ "/"%char :: "/"%char :: str "lib")) by reflexivity.
  pose proof (split_redundant_delimiters (str "/") (str "usr") (str "lib")
                "/" "/" H1 H1 H2) as [Ha Hb].
  refine (conj H1 (conj H2 (conj Ha (Hb _)))). discriminate.
Defined.

(** ** Properties of [set] *)

Lemma at_app_cons (a : std_string) (c : ascii) (rest rest' : std_string) :
  at_ (a ++ c :: rest) 0 = at_ (a ++ c :: rest') 0.
Proof. now destruct a. Qed.

Lemma at_app_nonempty (a b : std_string) : a <> [] -> at_ (a ++ b) 0 = at_ a 0.
Proof. destruct a; [congruence | reflexivity]. Qed.

(** Under POSIX a repeated slash and a trailing slash change neither the
    segments nor the absolute flag. *)
Theorem set_unix_redundant_slashes (a b : std_string) :
  fits (a ++ "/"%char :: "/"%char :: b) ->
  set (a ++ "/"%char :: "/"%char :: b) UNIX = set (a ++ "/"%char :: b) UNIX
  /\ (a <> [] -> set (a ++ ["/"%char]) UNIX = set a UNIX).
Proof.
  intros Hfit.
  assert (Hslash : mem_char "/" (str "/") = true) by reflexivity.
  split.
  - rewrite !set_unix; try apply app_cons_not_nil; try assumption.
    + unfold tokens. rewrite tokens_aux_double_delim by assumption.
      now rewrite (at_app_cons a "/" ("/"%char :: b) b).
    + apply (fits_shorter (a ++ "/"%char :: "/"%char :: b)); [|assumption].
      rewrite !length_app. cbn [List.length]. lia.
  - intros Ha.
    assert (Hfa : fits (a ++ ["/"%char])).
    { apply (fits_shorter (a ++ "/"%char :: "/"%char :: b)); [|assumption].
      rewrite !length_app. cbn [List.length]. lia. }
    rewrite !set_unix; try apply app_cons_not_nil; try assumption.
    + unfold tokens. rewrite tokens_aux_snoc_delim by assumption.
      now rewrite at_app_nonempty.
    + apply (fits_shorter (a ++ ["/"%char])); [|assumption].
      rewrite length_app. lia.
Qed.

(** The theorem at [/usr//lib] and [/usr/]. *)
Lemma set_unix_redundant_slashes_witness :
  fits (str "/usr" ++ "/"%char :: "/"%char :: str "lib")
  /\ set (str "/usr//lib") UNIX = set (str "/usr/lib") UNIX
  /\ set (str "/usr/") UNIX = set (str "/usr") UNIX.
Proof.
  assert (H : fits (str "/usr" ++ "/"%char :: "/"%char :: str "lib")) by reflexivity.
  pose proof (set_unix_redundant_slashes (str "/usr") (str "lib") H) as [Ha Hb].
  refine (conj H (conj Ha (Hb _))). discriminate.
Defined.

Lemma is_drive_prefix_no_delim (name : std_string) :
  no_delim (str "/\") name -> is_drive_prefix name = false.
Proof.
  intros H. destruct name as [|c [|k [|sp rest]]]; try reflexivity.
  rewrite is_drive_prefix_cons.
  inversion H as [|? ? _ H1]; subst. inversion H1 as [|? ? _ H2]; subst.
  inversion H2 as [|? ? Hsp _]; subst. rewrite Hsp. apply andb_false_r.
Qed.

Lemma mem_char_separators_head (P : Platform) (a : ascii) :
  mem_char a (separators P) = false -> Ascii.eqb a "/" = false.
Proof.
  destruct P; unfold mem_char; cbn; intros H.
  - now rewrite orb_false_r in H.
  - apply orb_false_elim in H. tauto.
Qed.

Lemma set_no_delim (name : std_string) (P : Platform) :
  fits name -> name <> [] -> no_delim (separators P) name ->
  set name P = Ret {| path_ := [name]; is_absolute_ := false; platform_ := P |}.
Proof.
  intros Hfit Hne Hnd. destruct P; cbn [separators] in Hnd.
  - rewrite set_unix, tokens_no_delim, opt_tok_cons by assumption.
    destruct name as [|a name]; [congruence|]. inversion Hnd; subst.
    cbn [at_ nth]. now rewrite (mem_char_separators_head UNIX a).
  - rewrite set_windows_relative by (assumption || now apply is_drive_prefix_no_delim).
    now rewrite tokens_no_delim, opt_tok_cons.
Qed.

(** A name without separators parses to one relative segment, the name. *)
Theorem set_plain_name (name : std_string) (P : Platform) :
  fits name -> name <> [] -> no_delim (separators P) name ->
  set name P = Ret {| path_ := [name]; is_absolute_ := false; platform_ := P |}.
Proof. apply set_no_delim. Qed.

(** The theorem at the name [notes.txt] under WINDOWS. *)
Lemma set_plain_name_witness :
  fits (str "notes.txt") /\ str "notes.txt" <> []
  /\ no_delim (separators WINDOWS) (str "notes.txt")
  /\ set (str "notes.txt") WINDOWS
     = Ret {| path_ := [str "notes.txt"]; is_absolute_ := false;
              platform_ := WINDOWS |}.
Proof.
  assert (H1 : fits (str "notes.txt")) by reflexivity.
  assert (H2 : str "notes.txt" <> []) by discriminate.
  assert (H3 : no_delim (separators WINDOWS) (str "notes.txt"))
    by (repeat constructor).
  exact (conj H1 (conj H2 (conj H3 (set_plain_name _ WINDOWS H1 H2 H3)))).
Defined.

(** [empty()] holds of a parsed value exactly when the string is non-empty
    and made of separators only; the value parsed from the empty string is
    not [empty()]. *)
Theorem set_empty_iff (s : std_string) (P : Platform) :
  fits s ->
  exists v, set s P = Ret v
    /\ (empty v = true
        <-> s <> [] /\ Forall (fun c => mem_char c (separators P) = true) s).
Proof.
  intros Hfit. destruct s as [|c s].
  - exists {| path_ := [[]]; is_absolute_ := false; platform_ := P |}.
    split; [destruct P; reflexivity|]. cbn. split; [discriminate | tauto].
  - assert (Hne : c :: s <> []) by discriminate.
    assert (Hemp : forall (a : bool) d,
               empty {| path_ := tokens d (c :: s); is_absolute_ := a;
                        platform_ := P |} = true
               <-> c :: s <> [] /\ Forall (fun x => mem_char x d = true) (c :: s)).
    { intros a d. unfold empty. cbn [path_]. split.
      - destruct (tokens d (c :: s)) eqn:E; [|discriminate].
        intros _. split; [assumption | now apply tokens_nil_all_delim].
      - intros [_ H]. now rewrite (tokens_all_delim _ _ H). }
    destruct P.
    + eexists. split; [now apply set_unix|]. apply Hemp.
    + destruct (is_drive_prefix (c :: s)) eqn:Hd.
      * assert (Hsepf : ~ (c :: s <> []
                          /\ Forall (fun x => mem_char x (separators WINDOWS) = true)
                                    (c :: s))).
        { intros [_ H]. inversion H as [|? ? Hc _]; subst.
          rewrite (is_drive_prefix_separator c s Hc) in Hd. discriminate Hd. }
        destruct (is_drive_prefix_inv _ Hd) as (c0 & k & sp & rest & E & Hck & Hsp).
        injection E as -> ->.
        assert (Hrest : fits rest).
        { apply (fits_shorter (c0 :: k :: sp :: rest)); [cbn; lia | assumption]. }
        destruct rest as [|x rest].
        -- exists {| path_ := [[c0; k]; []]; is_absolute_ := true;
                     platform_ := WINDOWS |}.
           split; [unfold set; rewrite Hd; reflexivity|].
           split; [discriminate | intros H; now apply Hsepf in H].
        -- eexists. split; [apply set_windows_drive; auto; discriminate|].
           split; [discriminate | intros H; now apply Hsepf in H].
      * eexists. split; [now apply set_windows_relative|]. apply Hemp.
Qed.

(** The theorem at the WINDOWS string [\/]. *)
Lemma set_empty_iff_witness :
  fits (str "\/")
  /\ exists v, set (str "\/") WINDOWS = Ret v /\ empty v = true.
Proof.
  assert (H : fits (str "\/")) by reflexivity.
  split; [exact H|].
  destruct (set_empty_iff (str "\/") WINDOWS H) as (v & Hv & Hiff).
  exists v. split; [exact Hv|]. apply Hiff.
  split; [discriminate | repeat constructor].
Defined.

(** ** The invariant of the data model *)

Lemma isalpha_not_separator (a : ascii) :
  isalpha a = true -> mem_char a (str "/\") = false.
Proof.
  intros Ha. destruct (mem_char a (str "/\")) eqn:Hm; [|reflexivity].
  destruct (mem_char_separators_windows a Hm) as [-> | ->]; discriminate Ha.
Qed.

Lemma drive_designator_inv (x : std_string) :
  is_drive_designator x = true ->
  exists c k, x = [c; k] /\ isalpha c = true /\ k = ":"%char.
Proof.
  destruct x as [|c [|k [|? ?]]]; try discriminate.
  cbn [is_drive_designator]. intros H.
  apply andb_prop in H. destruct H as [H Hk]. apply andb_prop in H.
  exists c, k. repeat split; [tauto | now apply Ascii.eqb_eq].
Qed.

Lemma drive_designator_segment (x : std_string) :
  is_drive_designator x = true -> segment (str "/\") x.
Proof.
  intros H. destruct (drive_designator_inv x H) as (c & k & -> & Hc & ->).
  split; [discriminate|].
  repeat constructor. now apply isalpha_not_separator.
Qed.

Lemma Forall_removelast {A : Type} (Q : A -> Prop) (l : list A) :
  Forall Q l -> Forall Q (removelast l).
Proof.
  induction 1 as [|x l Hx Hl IH]; [constructor|].
  destruct l; [constructor|]. cbn [removelast]. now constructor.
Qed.

Lemma dotdot_segment (P : Platform) : segment (separators P) (str "..").
Proof. destruct P; split; try discriminate; repeat constructor. Qed.

Lemma operator_div_unfold (a b : FilePath) :
  operator_div a b
  = if is_absolute_ b
    then Throw "FilePath::operator/(): expected a relative path!"
    else if Platform_eqb (platform_ a) (platform_ b)
         then Ret {| path_ := path_ a ++ path_ b;
                     is_absolute_ := is_absolute_ a;
                     platform_ := platform_ a |}
         else Throw "FilePath::operator/(): expected a path of the same type!".
Proof.
  unfold operator_div. rewrite fold_left_push_back.
  destruct (is_absolute_ b), (Platform_eqb (platform_ a) (platform_ b)); reflexivity.
Qed.

Lemma operator_div_ret (a b r : FilePath) :
  operator_div a b = Ret r ->
  is_absolute_ b = false /\ platform_ a = platform_ b
  /\ r = {| path_ := path_ a ++ path_ b; is_absolute_ := is_absolute_ a;
            platform_ := platform_ a |}.
Proof.
  rewrite operator_div_unfold.
  destruct (is_absolute_ b); [discriminate|].
  destruct (Platform_eqb (platform_ a) (platform_ b)) eqn:Hp; [|discriminate].
  apply Platform_eqb_eq in Hp. intros H. injection H as <-. auto.
Qed.

(** What [set] returns is well formed, unless the string is empty or, under
    WINDOWS, a bare drive prefix of three characters (both leave an empty
    segment). *)
Theorem set_well_formed (s : std_string) (P : Platform) :
  fits s -> s <> [] ->
  ~ (P = WINDOWS /\ is_drive_prefix s = true /\ List.length s = 3%nat) ->
  exists v, set s P = Ret v /\ well_formed v.
Proof.
  intros Hfit Hne Hbare. destruct P.
  - eexists. split; [now apply set_unix|].
    split; [apply tokens_segments | discriminate].
  - destruct (is_drive_prefix s) eqn:Hd.
    + destruct (is_drive_prefix_inv _ Hd) as (c & k & sp & rest & -> & Hck & Hsp).
      assert (Hrest : fits rest).
      { apply (fits_shorter (c :: k :: sp :: rest)); [cbn; lia | assumption]. }
      destruct rest as [|x rest]; [exfalso; apply Hbare; auto|].
      eexists. split; [apply set_windows_drive; auto; discriminate|].
      split; cbn [path_ platform_ separators hd].
      * constructor; [now apply drive_designator_segment | apply tokens_segments].
      * auto.
    + eexists. split; [now apply set_windows_relative|].
      split; [apply tokens_segments | discriminate].
Qed.

(** The theorem at the WINDOWS string [C:/Users\\x]. *)
Lemma set_well_formed_witness :
  fits (str "C:/Users\\x") /\ str "C:/Users\\x" <> []
  /\ ~ (WINDOWS = WINDOWS /\ is_drive_prefix (str "C:/Users\\x") = true
        /\ List.length (str "C:/Users\\x") = 3%nat)
  /\ exists v, set (str "C:/Users\\x") WINDOWS = Ret v /\ well_formed v.
Proof.
  assert (H1 : fits (str "C:/Users\\x")) by reflexivity.
  assert (H2 : str "C:/Users\\x" <> []) by discriminate.
  assert (H3 : ~ (WINDOWS = WINDOWS /\ is_drive_prefix (str "C:/Users\\x") = true
                  /\ List.length (str "C:/Users\\x") = 3%nat)).
  { intros (_ & _ & H). discriminate H. }
  exact (conj H1 (conj H2 (conj H3 (set_well_formed _ WINDOWS H1 H2 H3)))).
Defined.

(** [operator/] keeps the invariant: the composition of two well-formed
    values, when it returns, is well formed. *)
Theorem operator_div_well_formed (a b r : FilePath) :
  well_formed a -> well_formed b -> operator_div a b = Ret r -> well_formed r.
Proof.
  intros [Ha Hda] [Hb _] Hr.
  destruct (operator_div_ret a b r Hr) as (_ & Hp & ->).
  split; cbn [path_ platform_ is_absolute_].
  - apply Forall_app. split; [assumption | now rewrite Hp].
  - intros HP Habs. specialize (Hda HP Habs).
    destruct (path_ a); [discriminate Hda | assumption].
Qed.

(** The theorem at the WINDOWS values [C:\Users] and [x\y]. *)
Lemma operator_div_well_formed_witness :
  exists a b r,
    set (str "C:\Users") WINDOWS = Ret a /\ set (str "x\y") WINDOWS = Ret b
    /\ well_formed a /\ well_formed b /\ operator_div a b = Ret r
    /\ well_formed r.
Proof.
  assert (Ha : well_formed {| path_ := [str "C:"; str "Users"];
                              is_absolute_ := true; platform_ := WINDOWS |}).
  { split; [repeat constructor; discriminate | reflexivity]. }
  assert (Hb : well_formed {| path_ := [str "x"; str "y"];
                              is_absolute_ := false; platform_ := WINDOWS |}).
  { split; [repeat constructor; discriminate | discriminate]. }
  eexists. eexists. eexists.
  split; [reflexivity|]. split; [reflexivity|].
  split; [exact Ha|]. split; [exact Hb|].
  split; [reflexivity|].
  exact (operator_div_well_formed _ _ _ Ha Hb eq_refl).
Defined.

(** [parent_path] keeps the invariant on a relative value, and returns. *)
Theorem parent_path_well_formed (NATIVE : Platform)
    (resolve : std_string -> N + std_string) (v : FilePath) :
  well_formed v -> is_absolute_ v = false ->
  exists r, parent_path NATIVE resolve v = Ret r /\ well_formed r.
Proof.
  intros [Hv _] Hrel. unfold parent_path. rewrite Hrel.
  eexists. split; [reflexivity|].
  destruct (negb (empty v) && negb (string_eqb (back (path_ v)) (str "."))
            && negb (string_eqb (back (path_ v)) (str "..")));
    split; cbn [path_ platform_ is_absolute_];
    try (intros _ H; discriminate H).
  - now apply Forall_removelast.
  - apply Forall_app. split; [assumption|].
    constructor; [apply dotdot_segment | constructor].
Qed.

(** The theorem at the relative POSIX value [a/..]. *)
Lemma parent_path_well_formed_witness :
  well_formed {| path_ := [str "a"; str ".."]; is_absolute_ := false;
                 platform_ := UNIX |}
  /\ exists r, parent_path UNIX (fun _ => inl 2)
                 {| path_ := [str "a"; str ".."]; is_absolute_ := false;
                    platform_ := UNIX |} = Ret r
               /\ well_formed r.
Proof.
  assert (H : well_formed {| path_ := [str "a"; str ".."]; is_absolute_ := false;
                             platform_ := UNIX |}).
  { split; [repeat constructor; discriminate | discriminate]. }
  exact (conj H (parent_path_well_formed UNIX (fun _ => inl 2) _ H eq_refl)).
Defined.

(** ** Parsing the serialisation of a value *)

Lemma join_app (sep : ascii) (l1 l2 : list std_string) :
  l1 <> [] -> l2 <> [] ->
  join sep (l1 ++ l2) = join sep l1 ++ sep :: join sep l2.
Proof.
  intros H1 H2. induction l1 as [|x l1 IH]; [congruence|].
  destruct l1 as [|y l1].
  - cbn [app]. rewrite join_cons. destruct l2; [congruence | reflexivity].
  - change ((x :: y :: l1) ++ l2) with (x :: (y :: l1) ++ l2).
    rewrite (join_cons sep x ((y :: l1) ++ l2)), IH by discriminate.
    rewrite (join_cons sep x (y :: l1)). cbn [app].
    now rewrite <- app_assoc.
Qed.

(** A well-formed value with at least one segment (under WINDOWS: with a
    segment after the drive designator when absolute, not starting with a
    drive designator followed by another segment when relative) is what
    [set] reads from its own serialisation: values built by composition
    survive the passage through a string as parsed ones do. *)
Theorem set_of_to_str (v : FilePath) :
  well_formed v -> reparsable v = true ->
  exists t, to_str v (platform_ v) = Ret t
    /\ (fits t -> set t (platform_ v) = Ret v).
Proof.
  intros [Hsegs Hdrive] Hsafe.
  destruct v as [segs a P]. cbn [path_ platform_ is_absolute_] in *.
  assert (Hne : segs <> []).
  { unfold reparsable, empty in Hsafe. cbn [path_ platform_ is_absolute_] in Hsafe.
    destruct segs; [|discriminate]. destruct P, a; discriminate Hsafe. }
  eexists. split; [apply to_str_join; assumption|].
  unfold root_prefix. cbn [path_ platform_ is_absolute_].
  destruct segs as [|x l]; [congruence|].
  pose proof Hsegs as Hsegs'. inversion Hsegs' as [|? ? Hx Hl]; subst.
  destruct P; cbn [separators separator] in *.
  - destruct a; intros Hfit.
    + change (str "/" ++ join "/" (x :: l)) with ([] ++ "/"%char :: join "/" (x :: l)).
      rewrite set_unix by (assumption || apply app_cons_not_nil).
      rewrite tokens_delim by (constructor || reflexivity).
      rewrite tokens_join by (assumption || reflexivity). reflexivity.
    + cbn [app] in *.
      destruct (join_head (str "/") "/" x l Hx) as (c & rest & Hj & Hc).
      rewrite set_unix by (assumption || (apply join_not_nil; apply Hx)).
      rewrite tokens_join by (assumption || reflexivity).
      rewrite Hj. cbn [at_ nth]. now rewrite (mem_char_slash c Hc).
  - destruct a; cbn [app]; intros Hfit.
    + specialize (Hdrive eq_refl eq_refl). cbn [hd] in Hdrive.
      destruct (drive_designator_inv x Hdrive) as (c & k & -> & _ & _).
      unfold reparsable in Hsafe. cbn [path_ platform_ is_absolute_] in Hsafe.
      destruct l as [|y l]; [discriminate Hsafe|].
      inversion Hl as [|? ? [Hy _] _]; subst.
      rewrite (join_cons "\" [c; k]) in Hfit |- *. cbn [app] in Hfit |- *.
      rewrite set_windows_drive; try assumption; try reflexivity.
      * rewrite tokens_join by (assumption || reflexivity). reflexivity.
      * apply (fits_shorter (c :: k :: "\"%char :: join "\" (y :: l)));
          [cbn [List.length]; lia | assumption].
      * now apply join_not_nil.
    + unfold reparsable, empty in Hsafe. cbn [path_ platform_ is_absolute_ hd] in Hsafe.
      cbn [negb andb] in Hsafe. apply negb_true_iff in Hsafe.
      rewrite set_windows_relative; try assumption.
      * rewrite tokens_join by (assumption || reflexivity). reflexivity.
      * apply join_not_nil. apply Hx.
      * now apply is_drive_prefix_join.
Qed.

(** The theorem at the absolute WINDOWS value [C:], [Users], [x]. *)
Lemma set_of_to_str_witness :
  well_formed {| path_ := [str "C:"; str "Users"; str "x"];
                 is_absolute_ := true; platform_ := WINDOWS |}
  /\ to_str {| path_ := [str "C:"; str "Users"; str "x"];
               is_absolute_ := true; platform_ := WINDOWS |} WINDOWS
     = Ret (str "C:\Users\x")
  /\ exists t, to_str {| path_ := [str "C:"; str "Users"; str "x"];
                         is_absolute_ := true; platform_ := WINDOWS |} WINDOWS
               = Ret t
      /\ (fits t ->
          set t WINDOWS
          = Ret {| path_ := [str "C:"; str "Users"; str "x"];
                   is_absolute_ := true; platform_ := WINDOWS |}).
Proof.
  assert (H : well_formed {| path_ := [str "C:"; str "Users"; str "x"];
                             is_absolute_ := true; platform_ := WINDOWS |}).
  { split; [repeat constructor; discriminate | reflexivity]. }
  exact (conj H (conj eq_refl (set_of_to_str _ H eq_refl))).
Defined.

(** ** How the operations compose *)

(** [operator/] is associative on relative right operands of one syntax. *)
Theorem operator_div_assoc (a b c : FilePath) :
  is_absolute_ b = false -> is_absolute_ c = false ->
  platform_ a = platform_ b -> platform_ b = platform_ c ->
  (ab <- operator_div a b ;; operator_div ab c)
  = (bc <- operator_div b c ;; operator_div a bc).
Proof.
  intros Hb Hc Hab Hbc.
  rewrite (operator_div_unfold a b), (operator_div_unfold b c), Hb, Hc.
  rewrite (proj2 (Platform_eqb_eq _ _) Hab), (proj2 (Platform_eqb_eq _ _) Hbc).
  cbn [bind]. rewrite !operator_div_unfold.
  cbn [path_ platform_ is_absolute_]. rewrite ?Hb, ?Hc.
  rewrite (proj2 (Platform_eqb_eq _ _) Hab).
  rewrite (proj2 (Platform_eqb_eq (platform_ a) (platform_ c)) (eq_trans Hab Hbc)).
  now rewrite app_assoc.
Qed.

(** The theorem at the POSIX values [/usr], [local] and [lib/x]. *)
Lemma operator_div_assoc_witness :
  (ab <- operator_div
           {| path_ := [str "usr"]; is_absolute_ := true; platform_ := UNIX |}
           {| path_ := [str "local"]; is_absolute_ := false; platform_ := UNIX |} ;;
   operator_div ab
     {| path_ := [str "lib"; str "x"]; is_absolute_ := false; platform_ := UNIX |})
  = Ret {| path_ := [str "usr"; str "local"; str "lib"; str "x"];
           is_absolute_ := true; platform_ := UNIX |}
  /\ (bc <- operator_div
              {| path_ := [str "local"]; is_absolute_ := false; platform_ := UNIX |}
              {| path_ := [str "lib"; str "x"]; is_absolute_ := false;
                 platform_ := UNIX |} ;;
      operator_div
        {| path_ := [str "usr"]; is_absolute_ := true; platform_ := UNIX |} bc)
     = Ret {| path_ := [str "usr"; str "local"; str "lib"; str "x"];
              is_absolute_ := true; platform_ := UNIX |}.
Proof.
  split; [reflexivity|].
  rewrite <- (operator_div_assoc
                {| path_ := [str "usr"]; is_absolute_ := true; platform_ := UNIX |}
                {| path_ := [str "local"]; is_absolute_ := false; platform_ := UNIX |}
                {| path_ := [str "lib"; str "x"]; is_absolute_ := false;
                   platform_ := UNIX |} eq_refl eq_refl eq_refl eq_refl).
  reflexivity.
Defined.

(** The serialisation of a composition is the serialisation of the left
    operand, the separator of the target, and the serialisation of the right
    operand, when both operands have a segment. *)
Theorem to_str_operator_div (a b : FilePath) (target : Platform) :
  path_ a <> [] -> path_ b <> [] ->
  is_absolute_ b = false -> platform_ a = platform_ b ->
  exists ta tb,
    to_str a target = Ret ta /\ to_str b target = Ret tb
    /\ (r <- operator_div a b ;; to_str r target)
       = Ret (ta ++ separator target :: tb).
Proof.
  intros Ha Hb Hrel Hp.
  exists (root_prefix a ++ join (separator target) (path_ a)),
         (root_prefix b ++ join (separator target) (path_ b)).
  split; [now apply to_str_join|]. split; [now apply to_str_join|].
  rewrite operator_div_unfold, Hrel, (proj2 (Platform_eqb_eq _ _) Hp).
  cbn [bind]. rewrite to_str_join.
  - cbn [path_]. rewrite join_app by assumption.
    unfold root_prefix. cbn [is_absolute_ platform_]. rewrite Hrel.
    cbn [app]. now rewrite <- app_assoc.
  - cbn [path_]. destruct (path_ a); [congruence | discriminate].
Qed.

(** The theorem at the WINDOWS values [C:\Users] and [x\y], serialised for
    WINDOWS. *)
Lemma to_str_operator_div_witness :
  exists ta tb,
    to_str {| path_ := [str "C:"; str "Users"]; is_absolute_ := true;
              platform_ := WINDOWS |} WINDOWS = Ret ta
    /\ to_str {| path_ := [str "x"; str "y"]; is_absolute_ := false;
                 platform_ := WINDOWS |} WINDOWS = Ret tb
    /\ (r <- operator_div
               {| path_ := [str "C:"; str "Users"]; is_absolute_ := true;
                  platform_ := WINDOWS |}
               {| path_ := [str "x"; str "y"]; is_absolute_ := false;
                  platform_ := WINDOWS |} ;;
        to_str r WINDOWS)
       = Ret (ta ++ separator WINDOWS :: tb).
Proof.
  apply (to_str_operator_div
           {| path_ := [str "C:"; str "Users"]; is_absolute_ := true;
              platform_ := WINDOWS |}
           {| path_ := [str "x"; str "y"]; is_absolute_ := false;
              platform_ := WINDOWS |} WINDOWS);
    (discriminate || reflexivity).
Defined.

Lemma back_app (l1 l2 : list std_string) : l2 <> [] -> back (l1 ++ l2) = back l2.
Proof.
  intros H. destruct (exists_last H) as (l & x & ->).
  unfold back. now rewrite app_assoc, !last_last.
Qed.

(** The file name of a composition is the file name of the right operand,
    when that has a segment. *)
Theorem filename_operator_div (a b : FilePath) :
  path_ b <> [] -> is_absolute_ b = false -> platform_ a = platform_ b ->
  (r <- operator_div a b ;; Ret (filename r)) = Ret (filename b).
Proof.
  intros Hb Hrel Hp.
  rewrite operator_div_unfold, Hrel, (proj2 (Platform_eqb_eq _ _) Hp).
  cbn [bind]. unfold filename, empty. cbn [path_].
  rewrite back_app by assumption.
  destruct (path_ b) as [|x l]; [congruence|].
  now destruct (path_ a).
Qed.

(** The theorem at the POSIX values [/usr/lib] and [x/notes.txt]. *)
Lemma filename_operator_div_witness :
  (r <- operator_div
          {| path_ := [str "usr"; str "lib"]; is_absolute_ := true;
             platform_ := UNIX |}
          {| path_ := [str "x"; str "notes.txt"]; is_absolute_ := false;
             platform_ := UNIX |} ;;
   Ret (filename r))
  = Ret (str "notes.txt").
Proof.
  apply (filename_operator_div
           {| path_ := [str "usr"; str "lib"]; is_absolute_ := true;
              platform_ := UNIX |}
           {| path_ := [str "x"; str "notes.txt"]; is_absolute_ := false;
              platform_ := UNIX |});
    (discriminate || reflexivity).
Defined.

(** The parent of a relative value composed with a plain name, other than
    [.] and [..], is the value. *)
Theorem parent_path_operator_div (NATIVE : Platform)
    (resolve : std_string -> N + std_string) (a : FilePath) (name : std_string) :
  is_absolute_ a = false ->
  fits name -> name <> [] -> no_delim (separators (platform_ a)) name ->
  name <> str "." -> name <> str ".." ->
  (entry <- set name (platform_ a) ;;
   r <- operator_div a entry ;;
   parent_path NATIVE resolve r) = Ret a.
Proof.
  intros Hrel Hfit Hne Hnd Hdot Hdd.
  rewrite set_no_delim by assumption. cbn [bind].
  rewrite operator_div_unfold. cbn [path_ platform_ is_absolute_].
  rewrite (proj2 (Platform_eqb_eq _ _) eq_refl). cbn [bind].
  unfold parent_path. rewrite empty_snoc.
  cbn [path_ platform_ is_absolute_ negb andb]. rewrite back_snoc.
  apply string_eqb_neq in Hdot, Hdd. rewrite Hdot, Hdd, Hrel.
  cbn [negb andb]. rewrite removelast_last. destruct a. cbn in *. now subst.
Qed.

(** The theorem at the relative WINDOWS value [x\y] and the name [z.txt]. *)
Lemma parent_path_operator_div_witness :
  (entry <- set (str "z.txt") WINDOWS ;;
   r <- operator_div
          {| path_ := [str "x"; str "y"]; is_absolute_ := false;
             platform_ := WINDOWS |} entry ;;
   parent_path UNIX (fun _ => inl 2) r)
  = Ret {| path_ := [str "x"; str "y"]; is_absolute_ := false;
           platform_ := WINDOWS |}.
Proof.
  apply (parent_path_operator_div UNIX (fun _ => inl 2)
           {| path_ := [str "x"; str "y"]; is_absolute_ := false;
              platform_ := WINDOWS |} (str "z.txt"));
    try reflexivity; try discriminate.
  repeat constructor.
Defined.

(** ** Values built through the public interface *)

Lemma set_platform (s : std_string) (P : Platform) (v : FilePath) :
  set s P = Ret v -> platform_ v = P.
Proof.
  unfold set. destruct P.
  - destruct (split s (str "/")); cbn [bind]; try discriminate.
    intros H. now injection H as <-.
  - destruct (is_drive_prefix s).
    + destruct (substr s 0 2); cbn [bind]; try discriminate.
      destruct (split (erase_front s 3) (str "/\")); cbn [bind]; try discriminate.
      intros H. now injection H as <-.
    + destruct (split s (str "/\")); cbn [bind]; try discriminate.
      intros H. now injection H as <-.
Qed.

Lemma make_absolute_platform (NATIVE : Platform)
    (resolve : std_string -> N + std_string) (a r : FilePath) :
  make_absolute NATIVE resolve a = Ret r -> platform_ r = NATIVE.
Proof.
  unfold make_absolute.
  destruct (to_str a NATIVE) as [t| | |]; cbn [bind]; try discriminate.
  destruct (resolve t); [discriminate|]. apply set_platform.
Qed.

Lemma constructible_platform (NATIVE : Platform)
    (resolve : std_string -> N + std_string) (v : FilePath) :
  constructible NATIVE resolve v -> platform_ v = NATIVE.
Proof.
  induction 1 as [|s v Hs|a b r _ IHa _ _ Hr|a r _ IHa Hr|a r _ _ Hr].
  - reflexivity.
  - now apply (set_platform s).
  - destruct (operator_div_ret a b r Hr) as (_ & _ & ->). exact IHa.
  - unfold parent_path in Hr. destruct (is_absolute_ a).
    + now apply make_absolute_platform in Hr.
    + injection Hr as <-.
      now destruct (negb (empty a) && _ && _).
  - now apply make_absolute_platform in Hr.
Qed.

(** Every value built from narrow strings through the constructors,
    [operator/], [parent_path] and [make_absolute] carries the platform the
    header was compiled for, so between such values [operator/] never throws
    for a platform mismatch: it throws for an absolute right operand and
    concatenates otherwise. *)
Theorem operator_div_constructible (NATIVE : Platform)
    (resolve : std_string -> N + std_string) (a b : FilePath) :
  constructible NATIVE resolve a -> constructible NATIVE resolve b ->
  platform_ a = NATIVE /\ platform_ b = NATIVE
  /\ operator_div a b
     = if is_absolute_ b
       then Throw "FilePath::operator/(): expected a relative path!"
       else Ret {| path_ := path_ a ++ path_ b;
                   is_absolute_ := is_absolute_ a;
                   platform_ := NATIVE |}.
Proof.
  intros Ha Hb.
  apply constructible_platform in Ha, Hb.
  split; [assumption|]. split; [assumption|].
  rewrite operator_div_unfold, Ha, Hb.
  rewrite (proj2 (Platform_eqb_eq _ _) eq_refl). reflexivity.
Qed.

(** The theorem at the parent of [a/b] and the value of [c], on a POSIX
    build. *)
Lemma operator_div_constructible_witness :
  constructible UNIX (fun _ => inl 2)
    {| path_ := [str "a"]; is_absolute_ := false; platform_ := UNIX |}
  /\ constructible UNIX (fun _ => inl 2)
       {| path_ := [str "c"]; is_absolute_ := false; platform_ := UNIX |}
  /\ operator_div
       {| path_ := [str "a"]; is_absolute_ := false; platform_ := UNIX |}
       {| path_ := [str "c"]; is_absolute_ := false; platform_ := UNIX |}
     = Ret {| path_ := [str "a"; str "c"]; is_absolute_ := false;
              platform_ := UNIX |}.
Proof.
  assert (Ha : constructible UNIX (fun _ => inl 2)
                 {| path_ := [str "a"]; is_absolute_ := false; platform_ := UNIX |}).
  { apply (constructible_parent UNIX (fun _ => inl 2)
             {| path_ := [str "a"; str "b"]; is_absolute_ := false;
                platform_ := UNIX |}); [|reflexivity].
    apply (constructible_string UNIX (fun _ => inl 2) (str "a/b")). reflexivity. }
  assert (Hb : constructible UNIX (fun _ => inl 2)
                 {| path_ := [str "c"]; is_absolute_ := false; platform_ := UNIX |}).
  { apply (constructible_string UNIX (fun _ => inl 2) (str "c")). reflexivity. }
  split; [exact Ha|]. split; [exact Hb|].
  exact (proj2 (proj2 (operator_div_constructible UNIX (fun _ => inl 2) _ _ Ha Hb))).
Defined.

(** ** [extension] *)

Lemma find_last_scan_absent (c : ascii) (e : std_string) (i found : N) :
  ~ In c e -> find_last_scan c e i found = found.
Proof.
  revert i found. induction e as [|a e IH]; intros i found Hn; cbn [find_last_scan].
  - reflexivity.
  - destruct (Ascii.eqb a c) eqn:E.
    + apply Ascii.eqb_eq in E. subst. exfalso. apply Hn. now left.
    + apply IH. intros H. apply Hn. now right.
Qed.

Lemma find_last_scan_last (c : ascii) (pre e : std_string) (i found : N) :
  ~ In c e -> find_last_scan c (pre ++ c :: e) i found = i + size pre.
Proof.
  intros Hn. revert i found.
  induction pre as [|a pre IH]; intros i found; cbn [app find_last_scan].
  - rewrite Ascii.eqb_refl, find_last_scan_absent by assumption.
    rewrite size_nil. lia.
  - rewrite IH, size_cons. lia.
Qed.

(** When the serialised value names a directory and its last segment holds
    a dot, [extension] returns what follows the last dot. *)
Theorem extension_after_last_dot (NATIVE : Platform)
    (stat_is_dir : std_string -> bool) (v : FilePath) (s pre e : std_string) :
  to_str v NATIVE = Ret s -> stat_is_dir s = true ->
  filename v = pre ++ "."%char :: e -> ~ In "."%char e ->
  fits (filename v) ->
  extension NATIVE stat_is_dir v = Ret e.
Proof.
  intros Hs Hdir Hname Hnodot Hfit.
  unfold extension, is_directory. rewrite Hs. cbn [bind]. rewrite Hdir.
  cbn [negb]. rewrite Hname in Hfit |- *.
  unfold find_last_of. rewrite find_last_scan_last by assumption.
  pose proof npos_succ as Hn. unfold fits in Hfit.
  rewrite size_app, size_cons in Hfit. rewrite N.add_0_l.
  replace (size pre =? npos) with false by (symmetry; apply N.eqb_neq; lia).
  rewrite size_add_small by lia.
  replace (size pre + 1) with (size (pre ++ ["."%char]))
    by (rewrite size_app, size_cons, size_nil; lia).
  replace (pre ++ "."%char :: e) with ((pre ++ ["."%char]) ++ e)
    by (now rewrite <- app_assoc).
  apply substr_suffix. lia.
Qed.

(** The theorem at the POSIX value [/srv/data.v2.d], a directory. *)
Lemma extension_after_last_dot_witness :
  extension UNIX (fun _ => true)
    {| path_ := [str "srv"; str "data.v2.d"]; is_absolute_ := true;
       platform_ := UNIX |}
  = Ret (str "d").
Proof.
  apply (extension_after_last_dot UNIX (fun _ => true)
           {| path_ := [str "srv"; str "data.v2.d"]; is_absolute_ := true;
              platform_ := UNIX |}
           (str "/srv/data.v2.d") (str "data.v2") (str "d"));
    try reflexivity.
  intros [H | []]. discriminate H.
Defined.

(** [extension] returns the empty string for whatever is not a directory on
    disk, a regular file with a dotted name included, and for a name without
    a dot. *)
Theorem extension_empty (NATIVE : Platform)
    (stat_is_dir : std_string -> bool) (v : FilePath) (s : std_string) :
  to_str v NATIVE = Ret s ->
  stat_is_dir s = false \/ ~ In "."%char (filename v) ->
  extension NATIVE stat_is_dir v = Ret [].
Proof.
  intros Hs H. unfold extension, is_directory. rewrite Hs. cbn [bind].
  destruct (stat_is_dir s); [|reflexivity].
  destruct H as [H | H]; [discriminate H|]. cbn [negb].
  unfold find_last_of. rewrite find_last_scan_absent by assumption.
  now rewrite N.eqb_refl.
Qed.

(** The theorem at the POSIX value [/srv/notes.txt], not a directory. *)
Lemma extension_empty_witness :
  extension UNIX (fun _ => false)
    {| path_ := [str "srv"; str "notes.txt"]; is_absolute_ := true;
       platform_ := UNIX |}
  = Ret [].
Proof.
  apply (extension_empty UNIX (fun _ => false)
           {| path_ := [str "srv"; str "notes.txt"]; is_absolute_ := true;
              platform_ := UNIX |} (str "/srv/notes.txt")).
  - reflexivity.
  - left. reflexivity.
Defined.

(** ** [directory_iterator] *)

Lemma push_entries_names (NATIVE : Platform) (path : FilePath)
    (names : list std_string) (result : list FilePath) :
  platform_ path = NATIVE -> Forall (entry_name NATIVE) names ->
  push_entries NATIVE path names result
  = Ret (result ++ map (fun name => {| path_ := path_ path ++ [name];
                                       is_absolute_ := is_absolute_ path;
                                       platform_ := NATIVE |}) names).
Proof.
  intros Hp Hnames. revert result.
  induction Hnames as [|name names (Hfit & Hne & Hnd) _ IH]; intros result;
    cbn [push_entries map].
  - now rewrite app_nil_r.
  - unfold FilePath_of_string. rewrite set_no_delim by assumption. cbn [bind].
    rewrite operator_div_unfold. cbn [path_ platform_ is_absolute_].
    rewrite Hp, (proj2 (Platform_eqb_eq _ _) eq_refl). cbn [bind].
    rewrite IH, <- app_assoc. reflexivity.
Qed.

(** For a directory of the native platform whose entries have names without
    separators, [directory_iterator] returns one child per entry, in the
    order of the listing: the directory with the entry name as a further
    segment. *)
Theorem directory_iterator_children (NATIVE : Platform)
    (stat_is_dir : std_string -> bool)
    (list_dir : std_string -> option (list std_string))
    (path : FilePath) (s : std_string) (names : list std_string) :
  platform_ path = NATIVE -> to_str path NATIVE = Ret s ->
  stat_is_dir s = true -> list_dir (listed NATIVE s) = Some names ->
  Forall (entry_name NATIVE) names ->
  directory_iterator NATIVE stat_is_dir list_dir path
  = Ret (map (fun name => {| path_ := path_ path ++ [name];
                             is_absolute_ := is_absolute_ path;
                             platform_ := NATIVE |}) names).
Proof.
  intros Hp Hs Hdir Hlist Hnames.
  unfold directory_iterator, is_directory. rewrite Hs. cbn [bind].
  rewrite Hdir. cbn [negb].
  destruct NATIVE; cbn [listed] in Hlist.
  - rewrite Hlist. now rewrite push_entries_names.
  - unfold FilePath_of_string.
    change (set (str "*") WINDOWS)
      with (Ret {| path_ := [str "*"]; is_absolute_ := false;
                   platform_ := WINDOWS |}).
    cbn [bind]. rewrite operator_div_unfold. cbn [path_ platform_ is_absolute_].
    rewrite Hp. cbn [Platform_eqb bind].
    assert (Hne : path_ path <> []).
    { intros E. unfold to_str in Hs. rewrite E, Hp in Hs.
      destruct (is_absolute_ path); discriminate Hs. }
    rewrite to_str_join in Hs by assumption. injection Hs as <-.
    rewrite to_str_join by (cbn [path_]; destruct (path_ path); discriminate).
    cbn [path_]. rewrite join_app by (assumption || discriminate).
    assert (Hroot : root_prefix path = []).
    { unfold root_prefix. rewrite Hp. now destruct (is_absolute_ path). }
    rewrite Hroot in Hlist. cbn [app separator] in Hlist.
    unfold root_prefix. cbn [is_absolute_ platform_ separator join].
    cbn [bind].
    match goal with
    | |- match list_dir ?x with _ => _ end = _ =>
        replace x with (join "\" (path_ path) ++ str "\*")
          by (now destruct (is_absolute_ path))
    end.
    rewrite Hlist. now rewrite push_entries_names.
Qed.

(** The theorem at the POSIX directory [/srv] with the entries [.], [..]
    and [notes.txt]. *)
Lemma directory_iterator_children_witness :
  directory_iterator UNIX (fun _ => true)
    (fun _ => Some [str "."; str ".."; str "notes.txt"])
    {| path_ := [str "srv"]; is_absolute_ := true; platform_ := UNIX |}
  = Ret [ {| path_ := [str "srv"; str "."]; is_absolute_ := true;
             platform_ := UNIX |};
          {| path_ := [str "srv"; str ".."]; is_absolute_ := true;
             platform_ := UNIX |};
          {| path_ := [str "srv"; str "notes.txt"]; is_absolute_ := true;
             platform_ := UNIX |} ].
Proof.
  apply (directory_iterator_children UNIX (fun _ => true)
           (fun _ => Some [str "."; str ".."; str "notes.txt"])
           {| path_ := [str "srv"]; is_absolute_ := true; platform_ := UNIX |}
           (str "/srv") [str "."; str ".."; str "notes.txt"]);
    try reflexivity.
  repeat constructor; discriminate.
Defined.
